(** * Star-registry private blockchain: model of [src/blockchain.js]

    A shallow embedding of the [Blockchain] class and the properties of
    its append, validation, challenge and query operations.

    Promises are modelled by their final status ([Settled]); the only loop
    that can run forever (the backward walk of [validateChain]) takes a
    fuel argument and answers [None] when the fuel runs out. *)

From Stdlib Require Import ZArith List String Ascii Bool Lia.
Import ListNotations.

Local Open Scope string_scope.
Local Open Scope list_scope.
Local Open Scope Z_scope.

(** ** JavaScript primitives used by the class *)

Module JS.

(** A JavaScript number that is an integer or [NaN] ([None]). *)
Definition Number := option Z.

(** Truthiness of a number: [NaN] and [0] are falsy. *)
Definition truthy (n : Number) : bool :=
  match n with
  | Some v => negb (v =? 0)
  | None => false
  end.

(** [a - k] on numbers; [NaN] is absorbing. *)
Definition minus (a : Number) (k : Z) : Number :=
  match a with
  | Some v => Some (v - k)
  | None => None
  end.

(** [a > b] on numbers; any comparison with [NaN] is false. *)
Definition gt (a b : Number) : bool :=
  match a, b with
  | Some x, Some y => y <? x
  | _, _ => false
  end.

Definition digitChar (d : Z) : ascii := ascii_of_nat (48 + Z.to_nat d).

(** Decimal digits of a non-negative integer, most significant first,
    pushed in front of [acc]. *)
Fixpoint digitsOf (fuel : nat) (n : Z) (acc : string) : string :=
  match fuel with
  | O => acc
  | S k =>
      let acc' := String (digitChar (n mod 10)) acc in
      if n <? 10 then acc' else digitsOf k (n / 10) acc'
  end.

Definition digitFuel (n : Z) : nat := S (Z.to_nat (Z.log2 n)).

(** [Number.prototype.toString()] on an integer. *)
Definition toString (n : Z) : string :=
  if n <? 0
  then String "-" (digitsOf (digitFuel (- n)) (- n) "")
  else digitsOf (digitFuel n) n "".

Fixpoint take (n : nat) (s : string) : string :=
  match n, s with
  | S k, String c r => String c (take k r)
  | _, _ => ""
  end.

(** [s.slice(0, -3)]: everything but the last three characters. *)
Definition slice_0_neg3 (s : string) : string :=
  take (String.length s - 3) s.

(** [s.split(sep)] for a one-character separator. *)
Fixpoint split (sep : ascii) (s : string) : list string :=
  match s with
  | EmptyString => [EmptyString]
  | String c r =>
      if Ascii.eqb c sep then EmptyString :: split sep r
      else match split sep r with
           | seg :: segs => String c seg :: segs
           | [] => [String c EmptyString]
           end
  end.

(** [arr[i]] converted to a string, as [parseInt] does with its
    argument: a missing element is [undefined]. *)
Definition indexToString (arr : list string) (i : nat) : string :=
  nth i arr "undefined".

Definition isWhiteSpace (c : ascii) : bool :=
  let n := nat_of_ascii c in
  ((n =? 9) || (n =? 10) || (n =? 11) || (n =? 12) || (n =? 13)
   || (n =? 32) || (n =? 160))%nat.

Fixpoint trimStart (s : string) : string :=
  match s with
  | String c r => if isWhiteSpace c then trimStart r else s
  | EmptyString => EmptyString
  end.

Definition digitValue (c : ascii) : option Z :=
  let n := Z.of_nat (nat_of_ascii c) in
  if (48 <=? n) && (n <=? 57) then Some (n - 48)
  else if (97 <=? n) && (n <=? 122) then Some (n - 87)
  else if (65 <=? n) && (n <=? 90) then Some (n - 55)
  else None.

(** The longest prefix of digits below [radix], accumulated from the
    left; [acc] is [None] until a first digit was read. *)
Fixpoint parseDigits (radix : Z) (s : string) (acc : option Z) : option Z :=
  match s with
  | EmptyString => acc
  | String c r =>
      match digitValue c with
      | Some d =>
          if d <? radix
          then parseDigits radix r
                 (Some (match acc with Some a => a * radix + d | None => d end))
          else acc
      | None => acc
      end
  end.

(** [parseInt(s)] without a radix argument: leading white space, an
    optional sign, an optional [0x] prefix, then digits; [NaN] when no
    digit was read. *)
Definition parseInt (s : string) : Number :=
  let s1 := trimStart s in
  let '(sign, s2) :=
    match s1 with
    | String "-" r => (-1, r)
    | String "+" r => (1, r)
    | _ => (1, s1)
    end in
  let '(radix, s3) :=
    match s2 with
    | String "0" (String "x" r) => (16, r)
    | String "0" (String "X" r) => (16, r)
    | _ => (10, s2)
    end in
  match parseDigits radix s3 None with
  | Some v => Some (sign * v)
  | None => None
  end.

(** [new Date().getTime().toString().slice(0, -3)] for a clock that
    reads [now] milliseconds. *)
Definition timestamp (now : Z) : string := slice_0_neg3 (toString now).

(** Strings of decimal digits, and strings in which a character
    occurs. *)
Fixpoint decimal (s : string) : bool :=
  match s with
  | EmptyString => true
  | String c r =>
      match digitValue c with
      | Some d => (d <? 10) && decimal r
      | None => false
      end
  end.

Fixpoint occurs (c : ascii) (s : string) : bool :=
  match s with
  | EmptyString => false
  | String x r => Ascii.eqb x c || occurs c r
  end.

End JS.

(** ** Values, blocks and promise outcomes *)

(** Decoded payloads: the values [JSON.parse] can produce. *)
#[warnings="-register-all"]
Inductive JSValue : Type :=
| JNull
| JBool (b : bool)
| JNum (n : Z)
| JStr (s : string)
| JArr (items : list JSValue)
| JObj (props : list (string * JSValue)).

(** The fields of a [Block]; [null] is [None]. *)
Module Block.

Record t : Type := mk {
  hash : option string;
  height : Z;
  body : string;
  time : string;
  previousBlockHash : option string
}.

Definition set_hash (v : option string) (b : t) : t :=
  mk v (height b) (body b) (time b) (previousBlockHash b).
Definition set_height (v : Z) (b : t) : t :=
  mk (hash b) v (body b) (time b) (previousBlockHash b).
Definition set_body (v : string) (b : t) : t :=
  mk (hash b) (height b) v (time b) (previousBlockHash b).
Definition set_time (v : string) (b : t) : t :=
  mk (hash b) (height b) (body b) v (previousBlockHash b).
Definition set_previousBlockHash (v : option string) (b : t) : t :=
  mk (hash b) (height b) (body b) (time b) v.

End Block.

Inductive Error : Type :=
| TypeError                                        (* property read on [null] or [undefined] *)
| ErrorMsg (message : string)                      (* [new Error(message)] *)
| ErrorWithLog (message : string) (errorLog : list string)
                                                   (* an [Error] with an [errorLog] property *)
| Thrown (what : string).                          (* raised by a collaborator *)

(** Final status of a promise. [Pending] is a promise that is never
    settled: the executors of this class are [async] functions, so an
    exception escaping one of them rejects the executor's own promise and
    leaves the promise under construction untouched. *)
Inductive Settled (A : Type) : Type :=
| Resolved (a : A)
| Rejected (e : Error)
| Pending.

Arguments Resolved {A} a.
Arguments Rejected {A} e.
Arguments Pending {A}.

(** The state of a [Blockchain] object. *)
Record Blockchain : Type := mkBlockchain {
  chain : list Block.t;
  height : Z
}.

(** What the class imports: [crypto-js/sha256], the serialisation of a
    [Block] object by [JSON.stringify] (it depends on the field layout
    of [block.js]), the payload codec of [block.js] and
    [bitcoinjs-message], whose [verify] returns a boolean or throws
    (the text describes what was thrown). *)
Class Externals : Type := {
  SHA256 : string -> string;
  JSON_stringify : Block.t -> string;
  encodeData : JSValue -> string;
  decodeData : string -> option JSValue;
  verify : string -> string -> string -> string + bool
}.

Section Model.

Context {ext : Externals}.

(** *** The [Block] class *)

(** Modelled from the spec: the constructor of [block.js], which is
    not among the sources. It stores the payload in encoded form and
    leaves height, time, previous hash and hash unset. *)
Definition new_Block (data : JSValue) : Block.t :=
  Block.mk None 0 (encodeData data) "" None.

(** Modelled from the spec: [Block.validate] of [block.js]. It
    recomputes the hash over the block's current height, time, previous
    hash and payload (the stored hash is excluded from its own input)
    and compares it with the stored hash. *)
Definition validate (b : Block.t) : bool :=
  match Block.hash b with
  | Some h => String.eqb h (SHA256 (JSON_stringify (Block.set_hash None b)))
  | None => false
  end.

(** Modelled from the spec: [Block.getBData] of [block.js]. It decodes
    the stored payload and fails when the stored text is not valid
    encoded data. *)
Definition getBData (b : Block.t) : Settled JSValue :=
  match decodeData (Block.body b) with
  | Some data => Resolved data
  | None => Rejected (Thrown "DecodeError")
  end.

(** *** Queries *)

Definition getChainHeight (self : Blockchain) : Settled Z :=
  Resolved (height self).

(** [a === b] on values that are [null] or a string. *)
Definition strictEq (a b : option string) : bool :=
  match a, b with
  | Some x, Some y => String.eqb x y
  | None, None => true
  | _, _ => false
  end.

(** [self.chain.filter(b => b.hash === hash)[0] || null] *)
Definition getBlockByHash (self : Blockchain) (hash : option string)
  : Settled (option Block.t) :=
  Resolved (hd_error (filter (fun b => strictEq (Block.hash b) hash) (chain self))).

Definition getBlockByHeight (self : Blockchain) (height : Z)
  : Settled (option Block.t) :=
  Resolved (hd_error (filter (fun p => Block.height p =? height) (chain self))).

(** [data.owner] as read by the destructuring [const { owner } = data]:
    it throws on [null]; a missing property is [undefined] ([None]). *)
Definition getOwner (data : JSValue) : Error + option JSValue :=
  match data with
  | JNull => inl TypeError
  | JObj props =>
      inr (option_map snd (find (fun kv => String.eqb (fst kv) "owner") props))
  | _ => inr None
  end.

(** [owner === address] for a string [address]. *)
Definition ownerIs (owner : option JSValue) (address : string) : bool :=
  match owner with
  | Some (JStr s) => String.eqb s address
  | _ => false
  end.

(** The [for ... of] loop of [getStarsByWalletAddress]. *)
Fixpoint getStars_loop (address : string) (blocks : list Block.t)
    (stars : list JSValue) : Settled (list JSValue) :=
  match blocks with
  | [] => Resolved stars
  | block :: rest =>
      match getBData block with
      | Resolved data =>
          match getOwner data with
          | inr owner =>
              if ownerIs owner address
              then getStars_loop address rest (stars ++ [data])
              else getStars_loop address rest stars
          | inl _ => getStars_loop address rest stars      (* just skip *)
          end
      | Rejected _ => getStars_loop address rest stars      (* just skip *)
      | Pending => Pending
      end
  end.

Definition getStarsByWalletAddress (self : Blockchain) (address : string)
  : Settled (list JSValue) :=
  getStars_loop address (chain self) [].

(** *** Validation *)

(** [${block.hash}] in a template literal. *)
Definition hashText (h : option string) : string :=
  match h with
  | Some s => s
  | None => "null"
  end.

Definition invalidMsg (block : Block.t) : string :=
  ("Block with hash " ++ hashText (Block.hash block) ++ " is invalid")%string.

Definition brokenMsg (block : Block.t) : string :=
  ("Blockchain is broken. Last seen block with hash. "
     ++ hashText (Block.hash block))%string.

(** The statement after the [while] loop of [validateChain]. *)
Definition afterWalk (block : option Block.t) (errorLog : list string)
  : Settled (list string) :=
  match block with
  | None => Pending                               (* [block.height] on [null] *)
  | Some b =>
      if negb (Block.height b =? 0)
      then Resolved (errorLog ++ [brokenMsg b])
      else Resolved errorLog
  end.

(** The [while (block)] loop of [validateChain]; [None] when the fuel
    is used up before the loop ends. *)
Fixpoint validateChain_walk (fuel : nat) (self : Blockchain)
    (block : option Block.t) (errorLog : list string)
  : option (Settled (list string)) :=
  match block with
  | None => Some (afterWalk None errorLog)
  | Some b =>
      match fuel with
      | O => None
      | S fuel' =>
          let errorLog :=
            if validate b then errorLog else errorLog ++ [invalidMsg b] in
          match getBlockByHash self (Block.previousBlockHash b) with
          | Resolved (Some p) =>
              if Block.height p =? 0
              then Some (afterWalk (Some p) errorLog)          (* break *)
              else validateChain_walk fuel' self (Some p) errorLog
          | Resolved None => Some Pending         (* [block.height] on [null] *)
          | Rejected _ => Some Pending
          | Pending => Some Pending
          end
      end
  end.

Definition validateChain (fuel : nat) (self : Blockchain)
  : option (Settled (list string)) :=
  if (1 <? List.length (chain self))%nat
  then validateChain_walk fuel self
         (nth_error (chain self) (List.length (chain self) - 1)) []
  else Some (Resolved []).

(** *** Appending *)

(** [arr[i]] for a number [i]: [undefined] outside the array. *)
Definition index (arr : list Block.t) (i : Z) : option Block.t :=
  if i <? 0 then None else nth_error arr (Z.to_nat i).

(** The assignments [_addBlock] makes to the block before pushing it:
    previous hash (above height 0), height, time, then hash. The read
    of [self.chain[lastBlockHeight].hash] throws when the array has no
    such element. *)
Definition linkBlock (now : Z) (block : Block.t) (self : Blockchain)
  : Error + Block.t :=
  let lastBlockHeight := height self in
  let nextHeight := lastBlockHeight + 1 in
  match (if 0 <? nextHeight
         then match index (chain self) lastBlockHeight with
              | Some last =>
                  inr (Block.set_previousBlockHash (Block.hash last) block)
              | None => inl TypeError
              end
         else inr block) with
  | inl e => inl e
  | inr block =>
      let block := Block.set_height nextHeight block in
      let block := Block.set_time (JS.timestamp now) block in
      inr (Block.set_hash (Some (SHA256 (JSON_stringify block))) block)
  end.

(** The object after [self.chain.push(block)] and
    [self.height = nextHeight]. *)
Definition pushBlock (block : Block.t) (self : Blockchain) : Blockchain :=
  mkBlockchain (chain self ++ [block]) (height self + 1).

(** [_addBlock(block)] when the clock reads [now]. The second component
    is the state of the object after the call; the first is the status
    of the returned promise, [None] when the validation walk does not
    end within [fuel] steps. Blocks are values here: the callers in the
    class ([initializeChain], [submitStar]) pass a block they have just
    constructed, so the block being linked is never an element of the
    chain already. A call of this private method with an object that the
    chain already holds would assign to that element in place; such a
    call is not described by this definition. *)
Definition _addBlock (fuel : nat) (now : Z) (block : Block.t)
    (self : Blockchain) : option (Settled Block.t) * Blockchain :=
  match linkBlock now block self with
  | inl e => (Some (Rejected e), self)                      (* catch (e) *)
  | inr block =>
      let self := pushBlock block self in
      match validateChain fuel self with
      | None => (None, self)
      | Some (Resolved errorLog) =>
          if (List.length errorLog =? 0)%nat
          then (Some (Resolved block), self)
          else (Some (Rejected (ErrorWithLog "Blockchain is invalid" errorLog)),
                self)
      | Some (Rejected e) => (Some (Rejected e), self)
      | Some Pending => (Some Pending, self)
      end
  end.

Definition genesisData : JSValue := JObj [("data", JStr "Genesis Block")].

Definition initializeChain (fuel : nat) (now : Z) (self : Blockchain)
  : option (Settled unit) * Blockchain :=
  if height self =? -1
  then match _addBlock fuel now (new_Block genesisData) self with
       | (Some (Resolved _), self') => (Some (Resolved tt), self')
       | (Some (Rejected e), self') => (Some (Rejected e), self')
       | (Some Pending, self') => (Some Pending, self')
       | (None, self') => (None, self')
       end
  else (Some (Resolved tt), self).

(** [new Blockchain()]: the constructor does not wait for
    [initializeChain], whose push and height update happen before its
    first suspension. *)
Definition new_Blockchain (fuel : nat) (now : Z) : Blockchain :=
  snd (initializeChain fuel now (mkBlockchain [] (-1))).

(** *** Challenge and submission *)

Definition requestMessageOwnershipVerification (now : Z) (address : string)
  : Settled string :=
  Resolved (address ++ ":" ++ JS.timestamp now ++ ":starRegistry")%string.

(** [parseInt(message.split(':')[1])] *)
Definition messageTimeOf (message : string) : JS.Number :=
  JS.parseInt (JS.indexToString (JS.split ":" message) 1).

(** [submitStar]; the clock reads [now] at the expiry check and [now']
    when the block is appended. *)
Definition submitStar (fuel : nat) (now now' : Z)
    (address message signature : string) (star : JSValue)
    (self : Blockchain) : option (Settled Block.t) * Blockchain :=
  let messageTime := messageTimeOf message in
  if negb (JS.truthy messageTime)
  then (Some (Rejected (ErrorMsg "Invalid message format")), self)
  else
    let currentTime := JS.parseInt (JS.timestamp now) in
    if JS.gt (JS.minus currentTime (5 * 60)) messageTime
    then (Some (Rejected (ErrorMsg
            "Message is old. Request new message and resubmit the request")),
          self)
    else
      match verify message address signature with
      | inl what => (Some (Rejected (Thrown what)), self)
      | inr false => (Some (Rejected (ErrorMsg "Message verification failed")), self)
      | inr true =>
          let data := JObj [("owner", JStr address); ("star", star)] in
          _addBlock fuel now' (new_Block data) self
      end.

End Model.

(** ** Tampering with a stored block *)

(** [self.chain[i] = f(self.chain[i])]: the block at index [i] is
    overwritten from outside the class. *)
Fixpoint overwrite (i : nat) (f : Block.t -> Block.t) (blocks : list Block.t)
  : list Block.t :=
  match blocks, i with
  | [], _ => []
  | b :: rest, O => f b :: rest
  | b :: rest, S k => b :: overwrite k f rest
  end.

Definition tamper (i : nat) (f : Block.t -> Block.t) (self : Blockchain)
  : Blockchain :=
  mkBlockchain (overwrite i f (chain self)) (height self).

(** ** Notions used to state the properties *)

Section Notions.

Context {ext : Externals}.


(** The block the walk starts from. *)
Definition tip (self : Blockchain) : option Block.t :=
  nth_error (chain self) (List.length (chain self) - 1).



(** The blocks [validateChain] runs [validate] on: the tip, and every
    block a lookup finds with a height other than 0. *)
Inductive Visited (self : Blockchain) : Block.t -> Prop :=
| visited_tip (b : Block.t) : tip self = Some b -> Visited self b
| visited_prev (b p : Block.t) :
    Visited self b ->
    getBlockByHash self (Block.previousBlockHash b) = Resolved (Some p) ->
    Block.height p <> 0 ->
    Visited self p.

(** States of the object after [n] successful appends to a new
    chain. *)
Inductive Appended : nat -> Blockchain -> Prop :=
| appended_new (fuel : nat) (now : Z) : Appended 0 (new_Blockchain fuel now)
| appended_next (n fuel : nat) (now : Z) (block b : Block.t)
    (self self' : Blockchain) :
    Appended n self ->
    _addBlock fuel now block self = (Some (Resolved b), self') ->
    Appended (S n) self'.

(** States of the object reachable through its operations. The queries
    ([getChainHeight], [getBlockByHash], [getBlockByHeight],
    [getStarsByWalletAddress], [validateChain],
    [requestMessageOwnershipVerification]) are functions of the state
    and leave it as it is. *)
Inductive Reachable : Blockchain -> Prop :=
| reach_new (fuel : nat) (now : Z) : Reachable (new_Blockchain fuel now)
| reach_initializeChain (fuel : nat) (now : Z) (self : Blockchain) :
    Reachable self -> Reachable (snd (initializeChain fuel now self))
| reach_addBlock (fuel : nat) (now : Z) (block : Block.t) (self : Blockchain) :
    Reachable self -> Reachable (snd (_addBlock fuel now block self))
| reach_submitStar (fuel : nat) (now now' : Z)
    (address message signature : string) (star : JSValue)
    (self : Blockchain) :
    Reachable self ->
    Reachable (snd (submitStar fuel now now' address message signature star self)).

(** The height counter agrees with the length of the chain. *)
Definition Consistent (self : Blockchain) : Prop :=
  height self = Z.of_nat (List.length (chain self)) - 1.

Definition formatError : Error := ErrorMsg "Invalid message format".
Definition expiredError : Error :=
  ErrorMsg "Message is old. Request new message and resubmit the request".
Definition signatureError : Error := ErrorMsg "Message verification failed".

(** The first check of [submitStar] that fails, with its error. *)
Inductive FailedCheck (now : Z) (address message signature : string)
  : Error -> Prop :=
| failed_format :
    JS.truthy (messageTimeOf message) = false ->
    FailedCheck now address message signature formatError
| failed_expiry :
    JS.truthy (messageTimeOf message) = true ->
    JS.gt (JS.minus (JS.parseInt (JS.timestamp now)) 300)
      (messageTimeOf message) = true ->
    FailedCheck now address message signature expiredError
| failed_signature :
    JS.truthy (messageTimeOf message) = true ->
    JS.gt (JS.minus (JS.parseInt (JS.timestamp now)) 300)
      (messageTimeOf message) = false ->
    verify message address signature = inr false ->
    FailedCheck now address message signature signatureError.

(** The ownership query as the specification words it: the blocks are
    gone through in chain order; a block whose payload does not decode
    is skipped; a decoded payload is kept when it is an object with an
    [owner] field whose value is the address, a string. The field of an
    object is looked up here by its own recursion over the properties. *)
Fixpoint fieldValue (key : string) (props : list (string * JSValue))
  : option JSValue :=
  match props with
  | [] => None
  | (k, v) :: rest => if String.eqb key k then Some v else fieldValue key rest
  end.

Definition hasOwner (address : string) (payload : JSValue) : bool :=
  match payload with
  | JObj props =>
      match fieldValue "owner" props with
      | Some (JStr s) => String.eqb address s
      | _ => false
      end
  | _ => false
  end.

Fixpoint ownedPayloads (address : string) (blocks : list Block.t)
  : list JSValue :=
  match blocks with
  | [] => []
  | b :: rest =>
      match decodeData (Block.body b) with
      | Some payload =>
          if hasOwner address payload
          then payload :: ownedPayloads address rest
          else ownedPayloads address rest
      | None => ownedPayloads address rest
      end
  end.

(** The same query in terms of the helpers of the loop, used to follow
    the query through an append. *)
Definition decodedPayloads (blocks : list Block.t) : list JSValue :=
  flat_map (fun b => match getBData b with
                     | Resolved data => [data]
                     | _ => []
                     end) blocks.

Definition ownedBy (address : string) (data : JSValue) : bool :=
  match getOwner data with
  | inr owner => ownerIs owner address
  | inl _ => false
  end.

Definition starsOwnedBy (address : string) (self : Blockchain)
  : list JSValue :=
  filter (ownedBy address) (decodedPayloads (chain self)).

(** States reached through the constructor and the operations that
    make their own blocks, [initializeChain] and [submitStar]. *)
Inductive Built : Blockchain -> Prop :=
| built_new (fuel : nat) (now : Z) : Built (new_Blockchain fuel now)
| built_initializeChain (fuel : nat) (now : Z) (self : Blockchain) :
    Built self -> Built (snd (initializeChain fuel now self))
| built_submitStar (fuel : nat) (now now' : Z)
    (address message signature : string) (star : JSValue)
    (self : Blockchain) :
    Built self ->
    Built (snd (submitStar fuel now now' address message signature star self)).

(** One call of an operation of the class that can change the object.
    Both make the block they append themselves. *)
Inductive Call : Blockchain -> Blockchain -> Prop :=
| call_initializeChain (fuel : nat) (now : Z) (self : Blockchain) :
    Call self (snd (initializeChain fuel now self))
| call_submitStar (fuel : nat) (now now' : Z)
    (address message signature : string) (star : JSValue)
    (self : Blockchain) :
    Call self (snd (submitStar fuel now now' address message signature star self)).

(** No two blocks of the chain store the same hash. *)
Definition DistinctHashes (self : Blockchain) : Prop :=
  NoDup (map Block.hash (chain self)).

(** Every block sits at the index that is its height, the first block
    has no previous hash and every other block names the hash of the
    block before it. *)
Definition Linked (self : Blockchain) : Prop :=
  forall i b,
    nth_error (chain self) i = Some b ->
    Block.height b = Z.of_nat i
    /\ match i with
       | O => Block.previousBlockHash b = None
       | S k => exists p, nth_error (chain self) k = Some p
                          /\ Block.previousBlockHash b = Block.hash p
       end.

(** The payload [submitStar] stores. *)
Definition starData (address : string) (star : JSValue) : JSValue :=
  JObj [("owner", JStr address); ("star", star)].

End Notions.

(** ** A small instance of the collaborators

    A stand-in for the digest that keeps the whole serialisation of the
    block, a codec for payloads whose
    star is a string, and a verifier that accepts the signature
    [signed:<message>]. It is used to run the class on concrete chains. *)

Module Toy.

Fixpoint encStr (s : string) : string :=
  match s with
  | EmptyString => "0"
  | String c r => String "1" (String c (encStr r))
  end.

Definition encOpt (o : option string) : string :=
  match o with
  | None => "N"
  | Some s => String "S" (encStr s)
  end.

Fixpoint encNat (n : nat) : string :=
  match n with
  | O => "0"
  | S k => String "1" (encNat k)
  end.

Definition encZ (z : Z) : string :=
  String (if z <? 0 then "-"%char else "+"%char) (encNat (Z.abs_nat z)).

Definition stringify (b : Block.t) : string :=
  (encOpt (Block.hash b) ++ encZ (Block.height b) ++ encStr (Block.body b)
     ++ encStr (Block.time b) ++ encOpt (Block.previousBlockHash b))%string.

Definition digest (s : string) : string := s.

Definition encode (d : JSValue) : string :=
  match d with
  | JObj [(k1, JStr a); (k2, JStr s)] =>
      if String.eqb k1 "owner" && String.eqb k2 "star"
      then ("o|" ++ a ++ "|" ++ s)%string
      else "g"
  | _ => "g"
  end.

Definition decode (s : string) : option JSValue :=
  match JS.split "|" s with
  | [tag] =>
      if String.eqb tag "g" then Some (JObj [("data", JStr "Genesis Block")])
      else None
  | [tag; a; st] =>
      if String.eqb tag "o" then Some (JObj [("owner", JStr a); ("star", JStr st)])
      else None
  | _ => None
  end.

Definition check (message address signature : string) : string + bool :=
  if String.eqb signature "" then inl "Invalid signature length"
  else inr (String.eqb signature ("signed:" ++ message)).

#[export] Instance externals : Externals :=
  {| SHA256 := digest;
     JSON_stringify := stringify;
     encodeData := encode;
     decodeData := decode;
     verify := check |}.

(** A clock reading and the chains used in the examples below. *)
Definition now : Z := 1700000300000.

Definition message (address : string) : string :=
  (address ++ ":1700000000:starRegistry")%string.

Definition submit (address star : string) (self : Blockchain) : Blockchain :=
  snd (submitStar 8 now now address (message address)
         ("signed:" ++ message address) (JStr star) self).

Definition fresh : Blockchain := new_Blockchain 8 now.
Definition chain2 : Blockchain := submit "A" "Vega" fresh.
Definition chain3 : Blockchain := submit "B" "Deneb" chain2.
Definition chain4 : Blockchain := submit "A" "Altair" chain3.

(** Block 1 of [chain3] with another payload, its hash kept. *)
Definition forgedBody : Blockchain :=
  tamper 1 (Block.set_body "o|M|Vega") chain3.


(** Block 1 of [chain3] with its height set to 0. *)
Definition zeroHeight : Blockchain :=
  tamper 1 (Block.set_height 0) chain3.

(** Block 1 of [chain2] pointing to a hash no block has. *)
Definition dangling : Blockchain :=
  tamper 1 (Block.set_previousBlockHash (Some "deadbeef")) chain2.

Definition block (i : nat) (self : Blockchain) : Block.t :=
  nth i (chain self) (new_Block JNull).


(** A block to append, and the same block as [_addBlock] links it to
    [forgedBody]. *)
Definition extra : Block.t :=
  new_Block (JObj [("owner", JStr "C"); ("star", JStr "Sirius")]).

Definition extraLinked : Block.t :=
  match linkBlock now extra forgedBody with
  | inr b => b
  | inl _ => extra
  end.

End Toy.

(** ** Numbers and strings *)

Module JSFacts.
Import JS.

Lemma append_nil_r (s : string) : (s ++ "")%string = s.
Proof. induction s as [|c r IH]; simpl; [reflexivity | now rewrite IH]. Qed.

Lemma append_assoc (s t u : string) :
  ((s ++ t) ++ u)%string = (s ++ (t ++ u))%string.
Proof. induction s as [|c r IH]; simpl; [reflexivity | now rewrite IH]. Qed.

Lemma length_append (s t : string) :
  String.length (s ++ t) = (String.length s + String.length t)%nat.
Proof. induction s as [|c r IH]; simpl; [reflexivity | now rewrite IH]. Qed.

Lemma take_append (s t : string) : take (String.length s) (s ++ t) = s.
Proof. induction s as [|c r IH]; simpl; [now destruct t | now rewrite IH]. Qed.

Lemma slice_drops_three (s : string) (a b c : ascii) :
  slice_0_neg3 (s ++ String a (String b (String c ""))) = s.
Proof.
  unfold slice_0_neg3. rewrite length_append. simpl String.length.
  replace (String.length s + 3 - 3)%nat with (String.length s) by lia.
  apply take_append.
Qed.

Lemma digitsOf_acc (k : nat) : forall n acc,
  digitsOf k n acc = (digitsOf k n "" ++ acc)%string.
Proof.
  induction k as [|k IH]; intros n acc; simpl; [reflexivity|].
  destruct (n <? 10); [reflexivity|].
  rewrite (IH _ (String _ acc)), (IH _ (String _ "")).
  now rewrite append_assoc.
Qed.

Lemma digitsOf_fuel (k : nat) : forall n acc j,
  0 <= n < 2 ^ Z.of_nat (S k) ->
  digitsOf (S k) n acc = digitsOf (S (k + j)) n acc.
Proof.
  induction k as [|k IH]; intros n acc j Hn.
  - simpl. change (2 ^ Z.of_nat 1) with 2 in Hn.
    destruct (Z.ltb_spec n 10); [reflexivity | lia].
  - change (digitsOf (S (S k)) n acc)
      with (if n <? 10 then String (digitChar (n mod 10)) acc
            else digitsOf (S k) (n / 10) (String (digitChar (n mod 10)) acc)).
    change (digitsOf (S (S k + j)) n acc)
      with (if n <? 10 then String (digitChar (n mod 10)) acc
            else digitsOf (S (k + j)) (n / 10) (String (digitChar (n mod 10)) acc)).
    destruct (Z.ltb_spec n 10); [reflexivity|].
    apply IH. rewrite Nat2Z.inj_succ, Z.pow_succ_r in Hn by lia.
    split; [apply Z.div_pos; lia|].
    apply Z.div_lt_upper_bound; lia.
Qed.

Lemma toString_small (n : Z) :
  0 <= n < 10 -> toString n = String (digitChar n) "".
Proof.
  intros Hn. unfold toString, digitFuel.
  destruct (Z.ltb_spec n 0); [lia|]. simpl.
  destruct (Z.ltb_spec n 10); [|lia].
  now rewrite Z.mod_small by lia.
Qed.

Lemma toString_step (n : Z) :
  10 <= n ->
  toString n = (toString (n / 10) ++ String (digitChar (n mod 10)) "")%string.
Proof.
  intros Hn. unfold toString.
  assert (Hq : 1 <= n / 10) by (apply Z.div_le_lower_bound; lia).
  destruct (Z.ltb_spec n 0); [lia|].
  destruct (Z.ltb_spec (n / 10) 0); [lia|].
  assert (Hlog : Z.log2 (n / 10) < Z.log2 n).
  { assert (Hd : Z.log2 (2 * (n / 10)) <= Z.log2 n).
    { apply Z.log2_le_mono.
      assert (10 * (n / 10) <= n) by (apply Z.mul_div_le; lia). lia. }
    rewrite Z.log2_double in Hd by lia. lia. }
  assert (Hlq : 0 <= Z.log2 (n / 10)) by apply Z.log2_nonneg.
  unfold digitFuel.
  replace (Z.to_nat (Z.log2 n))
    with (S (Z.to_nat (Z.log2 (n / 10))
             + (Z.to_nat (Z.log2 n) - S (Z.to_nat (Z.log2 (n / 10))))))%nat
    by lia.
  set (k := Z.to_nat (Z.log2 (n / 10))).
  set (j := (Z.to_nat (Z.log2 n) - S k)%nat).
  change (digitsOf (S (S (k + j))) n "")
    with (if n <? 10 then String (digitChar (n mod 10)) ""
          else digitsOf (S (k + j)) (n / 10) (String (digitChar (n mod 10)) "")).
  destruct (Z.ltb_spec n 10); [lia|].
  rewrite digitsOf_acc. f_equal.
  symmetry. apply digitsOf_fuel.
  split; [lia|]. subst k. rewrite Nat2Z.inj_succ, Z2Nat.id by lia.
  apply Z.log2_spec. lia.
Qed.

Lemma timestamp_seconds (now : Z) :
  1000 <= now -> timestamp now = toString (now / 1000).
Proof.
  intros Hn. unfold timestamp.
  assert (H1 : 100 <= now / 10) by (apply Z.div_le_lower_bound; lia).
  assert (H2 : 10 <= now / 10 / 10) by (apply Z.div_le_lower_bound; lia).
  rewrite (toString_step now), (toString_step (now / 10)),
    (toString_step (now / 10 / 10)) by lia.
  rewrite !append_assoc. simpl append.
  rewrite slice_drops_three.
  rewrite !Z.div_div by lia. reflexivity.
Qed.

Lemma digit_cases (d : Z) :
  0 <= d <= 9 ->
  d = 0 \/ d = 1 \/ d = 2 \/ d = 3 \/ d = 4 \/ d = 5 \/ d = 6 \/ d = 7
  \/ d = 8 \/ d = 9.
Proof. lia. Qed.

Ltac each_digit d H :=
  destruct (digit_cases d H) as [->|[->|[->|[->|[->|[->|[->|[->|[->| ->]]]]]]]]].

Lemma digitValue_digitChar (d : Z) :
  0 <= d <= 9 -> digitValue (digitChar d) = Some d.
Proof. intros H. each_digit d H; reflexivity. Qed.

Lemma decimal_append (s t : string) :
  decimal (s ++ t) = decimal s && decimal t.
Proof.
  induction s as [|c r IH]; simpl; [reflexivity|].
  destruct (digitValue c) as [d|]; [|reflexivity].
  now rewrite IH, andb_assoc.
Qed.

Lemma decimal_no_colon (s : string) :
  decimal s = true -> occurs ":"%char s = false.
Proof.
  induction s as [|c r IH]; simpl; [reflexivity|].
  destruct (Ascii.eqb_spec c ":") as [->|_]; [discriminate|].
  destruct (digitValue c) as [d|]; [|discriminate].
  intros H. apply andb_prop in H. now apply IH.
Qed.

Lemma parseDigits_append (s t : string) : forall acc,
  decimal s = true ->
  parseDigits 10 (s ++ t) acc = parseDigits 10 t (parseDigits 10 s acc).
Proof.
  induction s as [|c r IH]; intros acc Hs; simpl in *; [reflexivity|].
  destruct (digitValue c) as [d|]; [|discriminate].
  apply andb_prop in Hs. destruct Hs as [Hd Hr].
  rewrite Hd. now apply IH.
Qed.

(** Printing a non-negative integer gives decimal digits that parse
    back to it. *)
Lemma toString_digits (n : Z) :
  0 <= n ->
  decimal (toString n) = true /\ parseDigits 10 (toString n) None = Some n.
Proof.
  intros Hn0. generalize Hn0. pattern n.
  apply Z_lt_induction; [clear n Hn0; intros n IH Hn | exact Hn0].
  destruct (Z.ltb_spec n 10) as [Hlt|Hge].
  - rewrite toString_small by lia. cbn [decimal parseDigits].
    rewrite digitValue_digitChar by lia.
    destruct (Z.ltb_spec n 10); [|lia]. now split.
  - assert (Hq : 0 <= n / 10 < n).
    { split; [apply Z.div_pos; lia | apply Z.div_lt; lia]. }
    destruct (IH _ Hq) as [Hdec Hparse]; [lia|].
    assert (Hm : 0 <= n mod 10 < 10) by (apply Z.mod_pos_bound; lia).
    rewrite toString_step by lia. split.
    + rewrite decimal_append, Hdec. cbn [decimal parseDigits andb].
      rewrite digitValue_digitChar by lia.
      destruct (Z.ltb_spec (n mod 10) 10); [reflexivity | lia].
    + rewrite parseDigits_append, Hparse by assumption. cbn [decimal parseDigits].
      rewrite digitValue_digitChar by lia.
      destruct (Z.ltb_spec (n mod 10) 10); [|lia].
      f_equal. rewrite (Z.div_mod n 10) at 3 by lia. lia.
Qed.

(** The first character of a printed positive integer is a digit from
    1 to 9. *)
Lemma toString_head (n : Z) :
  1 <= n -> exists d r, 1 <= d <= 9 /\ toString n = String (digitChar d) r.
Proof.
  intros Hn1. generalize Hn1. pattern n.
  apply Z_lt_induction; [clear n Hn1; intros n IH Hn | lia].
  destruct (Z.ltb_spec n 10) as [Hlt|Hge].
  - exists n, "". split; [lia|]. apply toString_small. lia.
  - assert (Hq : 0 <= n / 10 < n).
    { split; [apply Z.div_pos; lia | apply Z.div_lt; lia]. }
    assert (H1 : 1 <= n / 10) by (apply Z.div_le_lower_bound; lia).
    destruct (IH _ Hq H1) as (d & r & Hd & Heq).
    exists d, (r ++ String (digitChar (n mod 10)) "")%string.
    split; [assumption|]. rewrite toString_step by lia. now rewrite Heq.
Qed.

Lemma parseInt_head (d : Z) (r : string) :
  1 <= d <= 9 ->
  parseInt (String (digitChar d) r)
  = match parseDigits 10 (String (digitChar d) r) None with
    | Some v => Some (1 * v)
    | None => None
    end.
Proof.
  intros H. assert (H' : 0 <= d <= 9) by lia.
  each_digit d H'; try lia; reflexivity.
Qed.

Lemma parseInt_toString (n : Z) : 1 <= n -> parseInt (toString n) = Some n.
Proof.
  intros Hn. destruct (toString_head n Hn) as (d & r & Hd & Heq).
  destruct (toString_digits n) as [_ Hparse]; [lia|].
  rewrite Heq in *. rewrite parseInt_head, Hparse by assumption.
  f_equal. lia.
Qed.

Lemma split_first (sep : ascii) (s rest : string) :
  occurs sep s = false ->
  split sep (s ++ String sep rest) = s :: split sep rest.
Proof.
  induction s as [|c r IH]; simpl; intros H.
  - now rewrite Ascii.eqb_refl.
  - apply orb_false_elim in H. destruct H as [Hc Hr].
    rewrite Hc, IH by assumption. reflexivity.
Qed.

End JSFacts.

(** ** Properties of the class *)

Section Properties.

Context {ext : Externals}.

(** *** The validation walk *)

Lemma walk_unfold (fuel : nat) (self : Blockchain) (b : Block.t)
    (errorLog : list string) :
  validateChain_walk (S fuel) self (Some b) errorLog
  = let errorLog :=
      if validate b then errorLog else errorLog ++ [invalidMsg b] in
    match getBlockByHash self (Block.previousBlockHash b) with
    | Resolved (Some p) =>
        if Block.height p =? 0
        then Some (afterWalk (Some p) errorLog)
        else validateChain_walk fuel self (Some p) errorLog
    | _ => Some Pending
    end.
Proof.
  cbn [validateChain_walk].
  destruct (getBlockByHash self (Block.previousBlockHash b)) as [[p|]|e|];
    reflexivity.
Qed.

Lemma getBlockByHash_resolves (self : Blockchain) (h : option string) :
  exists r, getBlockByHash self h = Resolved r.
Proof. unfold getBlockByHash. eauto. Qed.

(** The walk never rejects: it resolves, stays pending or goes on. *)
Lemma walk_not_rejected (fuel : nat) (self : Blockchain) :
  forall block errorLog e,
    validateChain_walk fuel self block errorLog <> Some (Rejected e).
Proof.
  induction fuel as [|fuel IH]; intros [b|] errorLog e.
  - discriminate.
  - discriminate.
  - rewrite walk_unfold. cbv zeta.
    destruct (getBlockByHash self (Block.previousBlockHash b)) as [[p|]|e'|];
      try discriminate.
    destruct (Z.eqb_spec (Block.height p) 0) as [Hz|Hz].
    + unfold afterWalk. rewrite Hz. discriminate.
    + apply IH.
  - discriminate.
Qed.

Lemma validateChain_not_rejected (fuel : nat) (self : Blockchain) (e : Error) :
  validateChain fuel self <> Some (Rejected e).
Proof.
  unfold validateChain. destruct (1 <? List.length (chain self))%nat.
  - apply walk_not_rejected.
  - discriminate.
Qed.





(** A lookup that finds nothing leaves the promise pending. *)
Lemma walk_dangling (fuel : nat) (self : Blockchain) (b : Block.t)
    (errorLog : list string) :
  getBlockByHash self (Block.previousBlockHash b) = Resolved None ->
  validateChain_walk (S fuel) self (Some b) errorLog = Some Pending.
Proof. intros H. rewrite walk_unfold. cbv zeta. now rewrite H. Qed.

(** What a resolved walk from [c] has logged, and where it went on. *)
Lemma walk_logs (fuel : nat) (self : Blockchain) :
  forall c errorLog out,
    validateChain_walk fuel self (Some c) errorLog = Some (Resolved out) ->
    incl errorLog out
    /\ (validate c = false -> In (invalidMsg c) out)
    /\ (forall p,
          getBlockByHash self (Block.previousBlockHash c) = Resolved (Some p) ->
          Block.height p <> 0 ->
          exists fuel' errorLog',
            validateChain_walk fuel' self (Some p) errorLog'
            = Some (Resolved out)).
Proof.
  induction fuel as [|fuel IH]; intros c errorLog out Hw; [discriminate|].
  rewrite walk_unfold in Hw. cbv zeta in Hw.
  set (log' := if validate c then errorLog else errorLog ++ [invalidMsg c]) in *.
  assert (Hincl : incl errorLog log').
  { subst log'. destruct (validate c);
      [apply incl_refl | apply incl_appl, incl_refl]. }
  assert (Hmsg : validate c = false -> In (invalidMsg c) log').
  { subst log'. intros ->. apply in_or_app. right. now left. }
  destruct (getBlockByHash self (Block.previousBlockHash c)) as [[p|]|e|];
    try discriminate.
  destruct (Z.eqb_spec (Block.height p) 0) as [Hz|Hz].
  - unfold afterWalk in Hw. rewrite Hz in Hw. cbn in Hw.
    injection Hw as <-. split; [exact Hincl|]. split; [exact Hmsg|].
    intros p' Hp' Hh. injection Hp' as <-. contradiction.
  - destruct (IH p log' out Hw) as (Hi & _ & _).
    split; [eapply incl_tran; eassumption|].
    split; [intros Hv; apply Hi, Hmsg, Hv|].
    intros p' Hp' _. injection Hp' as <-. eauto.
Qed.

Lemma invalidMsg_not_brokenMsg (b b' : Block.t) : invalidMsg b <> brokenMsg b'.
Proof. unfold invalidMsg, brokenMsg. cbn. discriminate. Qed.

(** A resolved walk only adds entries of the form
    [Block with hash ... is invalid]: the statement after the loop never
    adds its broken-chain entry, since the loop is left at a block of
    height 0 only. *)
Lemma walk_logs_invalid_only (fuel : nat) (self : Blockchain) :
  forall c errorLog out,
    Forall (fun e => exists b, e = invalidMsg b) errorLog ->
    validateChain_walk fuel self (Some c) errorLog = Some (Resolved out) ->
    Forall (fun e => exists b, e = invalidMsg b) out.
Proof.
  induction fuel as [|fuel IH]; intros c errorLog out Hlog Hw; [discriminate|].
  rewrite walk_unfold in Hw. cbv zeta in Hw.
  set (log' := if validate c then errorLog else errorLog ++ [invalidMsg c]) in *.
  assert (Hlog' : Forall (fun e => exists b, e = invalidMsg b) log').
  { subst log'. destruct (validate c); [exact Hlog|].
    apply Forall_app. split; [exact Hlog|]. constructor; eauto. }
  destruct (getBlockByHash self (Block.previousBlockHash c)) as [[p|]|e|];
    try discriminate.
  destruct (Z.eqb_spec (Block.height p) 0) as [Hz|Hz].
  - unfold afterWalk in Hw. rewrite Hz in Hw. cbn in Hw.
    injection Hw as <-. exact Hlog'.
  - now apply (IH p log' out).
Qed.

(** X1. [validateChain] never records the broken-chain entry: on any
    chain, no error list it resolves with contains
    [Blockchain is broken. Last seen block with hash. <hash>] of any
    block. *)
Lemma validateChain_never_reports_broken (fuel : nat) (self : Blockchain)
    (out : list string) (b : Block.t) :
  validateChain fuel self = Some (Resolved out) -> ~ In (brokenMsg b) out.
Proof.
  unfold validateChain.
  destruct (Nat.ltb_spec 1 (List.length (chain self))) as [Hlen|Hlen].
  - destruct (nth_error (chain self) (List.length (chain self) - 1)) as [t|] eqn:Ht.
    + intros Hw Hin.
      pose proof (walk_logs_invalid_only fuel self t [] out (Forall_nil _) Hw) as Hall.
      rewrite Forall_forall in Hall. destruct (Hall _ Hin) as [b' Hb'].
      symmetry in Hb'. now apply invalidMsg_not_brokenMsg in Hb'.
    + apply nth_error_None in Ht. lia.
  - intros H. injection H as <-. intros [].
Qed.

Lemma visited_walk (fuel : nat) (self : Blockchain) (t b : Block.t)
    (out : list string) :
  tip self = Some t ->
  validateChain_walk fuel self (Some t) [] = Some (Resolved out) ->
  Visited self b ->
  exists fuel' errorLog',
    validateChain_walk fuel' self (Some b) errorLog' = Some (Resolved out).
Proof.
  intros Ht Hw Hv. induction Hv as [b Hb|b p _ IH Hp Hh].
  - rewrite Ht in Hb. injection Hb as <-. eauto.
  - destruct IH as (fuel' & log' & Hw').
    destruct (walk_logs fuel' self b log' out Hw') as (_ & _ & Hnext).
    now apply Hnext.
Qed.

Lemma validateChain_long (fuel : nat) (self : Blockchain) :
  (1 < List.length (chain self))%nat ->
  validateChain fuel self = validateChain_walk fuel self (tip self) [].
Proof.
  intros H. unfold validateChain, tip.
  now destruct (Nat.ltb_spec 1 (List.length (chain self))); [|lia].
Qed.

Lemma tip_exists (self : Blockchain) :
  (1 < List.length (chain self))%nat -> exists t, tip self = Some t.
Proof.
  intros H. unfold tip.
  destruct (nth_error (chain self) (List.length (chain self) - 1)) as [t|] eqn:Ht;
    [eauto|].
  apply nth_error_None in Ht. lia.
Qed.


(** *** Appending *)

Lemma addBlock_state (fuel : nat) (now : Z) (block : Block.t)
    (self : Blockchain) :
  snd (_addBlock fuel now block self)
  = match linkBlock now block self with
    | inl _ => self
    | inr b => pushBlock b self
    end.
Proof.
  unfold _addBlock. destruct (linkBlock now block self) as [e|b]; [reflexivity|].
  cbv zeta. destruct (validateChain fuel (pushBlock b self)) as [[l|e|]|];
    try reflexivity.
  destruct (List.length l =? 0)%nat; reflexivity.
Qed.

Lemma addBlock_resolved (fuel : nat) (now : Z) (block b : Block.t)
    (self self' : Blockchain) :
  _addBlock fuel now block self = (Some (Resolved b), self') ->
  linkBlock now block self = inr b /\ self' = pushBlock b self
  /\ validateChain fuel self' = Some (Resolved []).
Proof.
  unfold _addBlock. destruct (linkBlock now block self) as [e|b0]; [discriminate|].
  cbv zeta.
  destruct (validateChain fuel (pushBlock b0 self)) as [[l|e|]|] eqn:Hv;
    try discriminate.
  destruct l as [|x l]; cbn [List.length Nat.eqb]; [|discriminate].
  intros H. injection H as <- <-. auto.
Qed.

(** A rejection of [_addBlock] is the [TypeError] of the link step or
    carries the validation log. *)
Lemma addBlock_rejected (fuel : nat) (now : Z) (block : Block.t)
    (self : Blockchain) (e : Error) :
  fst (_addBlock fuel now block self) = Some (Rejected e) ->
  e = TypeError \/ exists log, e = ErrorWithLog "Blockchain is invalid" log.
Proof.
  unfold _addBlock, linkBlock.
  destruct (0 <? height self + 1).
  - destruct (index (chain self) (height self)) as [last|].
    + cbv zeta.
      match goal with |- context [validateChain fuel ?s] =>
        pose proof (validateChain_not_rejected fuel s) as Hnr;
        destruct (validateChain fuel s) as [[l|e'|]|] end;
        try discriminate.
      * destruct (List.length l =? 0)%nat; [discriminate|].
        intros H. injection H as <-. eauto.
      * now destruct (Hnr e').
    + intros H. injection H as <-. now left.
  - cbv zeta.
    match goal with |- context [validateChain fuel ?s] =>
      pose proof (validateChain_not_rejected fuel s) as Hnr;
      destruct (validateChain fuel s) as [[l|e'|]|] end;
      try discriminate.
    + destruct (List.length l =? 0)%nat; [discriminate|].
      intros H. injection H as <-. eauto.
    + now destruct (Hnr e').
Qed.

Lemma linkBlock_inv (now : Z) (block b : Block.t) (self : Blockchain) :
  linkBlock now block self = inr b ->
  Block.height b = height self + 1
  /\ (0 < height self + 1 ->
      exists last, index (chain self) (height self) = Some last
                   /\ Block.previousBlockHash b = Block.hash last).
Proof.
  unfold linkBlock. cbv zeta.
  destruct (Z.ltb_spec 0 (height self + 1)) as [Hpos|Hneg].
  - destruct (index (chain self) (height self)) as [last|]; [|discriminate].
    intros H. injection H as <-. split; [reflexivity|].
    intros _. exists last. split; reflexivity.
  - intros H. injection H as <-. split; [reflexivity | lia].
Qed.

Lemma initializeChain_state (fuel : nat) (now : Z) (self : Blockchain) :
  snd (initializeChain fuel now self)
  = if height self =? -1
    then snd (_addBlock fuel now (new_Block genesisData) self)
    else self.
Proof.
  unfold initializeChain. destruct (height self =? -1); [|reflexivity].
  destruct (_addBlock fuel now (new_Block genesisData) self)
    as [[[blk|e|]|] self']; reflexivity.
Qed.

Lemma new_Blockchain_state (fuel : nat) (now : Z) :
  exists g, new_Blockchain fuel now = mkBlockchain [g] 0
            /\ Block.height g = 0 /\ Block.previousBlockHash g = None.
Proof.
  unfold new_Blockchain. rewrite initializeChain_state.
  cbn [height Z.eqb]. rewrite addBlock_state.
  unfold linkBlock. cbn [height chain Z.add Z.ltb Z.compare Z.opp Pos.compare
                           Z.pos_sub Pos.compare_cont].
  cbv zeta. unfold pushBlock. cbn [chain height app].
  eexists. split; [reflexivity|]. split; reflexivity.
Qed.

Lemma submitStar_state (fuel : nat) (now now' : Z)
    (address message signature : string) (star : JSValue)
    (self : Blockchain) :
  snd (submitStar fuel now now' address message signature star self) = self
  \/ exists block,
      snd (submitStar fuel now now' address message signature star self)
      = snd (_addBlock fuel now' block self).
Proof.
  unfold submitStar. cbv zeta.
  destruct (negb (JS.truthy (messageTimeOf message))); [now left|].
  destruct (JS.gt _ _); [now left|].
  destruct (verify message address signature) as [what|[|]];
    [now left | right; eauto | now left].
Qed.

(** **** Height and length *)

Lemma consistent_link (now : Z) (block : Block.t) (self : Blockchain) :
  Consistent self -> exists b, linkBlock now block self = inr b.
Proof.
  unfold Consistent, linkBlock. intros Hc. cbv zeta.
  destruct (Z.ltb_spec 0 (height self + 1)) as [Hpos|Hneg]; [|eauto].
  unfold index. destruct (Z.ltb_spec (height self) 0); [lia|].
  destruct (nth_error (chain self) (Z.to_nat (height self))) as [last|] eqn:Hn;
    [eauto|].
  apply nth_error_None in Hn. lia.
Qed.

Lemma consistent_push (b : Block.t) (self : Blockchain) :
  Consistent self -> Consistent (pushBlock b self).
Proof.
  unfold Consistent, pushBlock. cbn [chain height]. intros ->.
  rewrite length_app. cbn [List.length]. lia.
Qed.

Lemma consistent_addBlock (fuel : nat) (now : Z) (block : Block.t)
    (self : Blockchain) :
  Consistent self -> Consistent (snd (_addBlock fuel now block self)).
Proof.
  intros Hc. rewrite addBlock_state.
  destruct (linkBlock now block self); [assumption | now apply consistent_push].
Qed.

Lemma reachable_consistent (self : Blockchain) :
  Reachable self -> Consistent self.
Proof.
  induction 1 as [fuel now|fuel now self _ IH|fuel now block self _ IH
                 |fuel now now' address message signature star self _ IH].
  - destruct (new_Blockchain_state fuel now) as (g & -> & _). reflexivity.
  - rewrite initializeChain_state.
    destruct (height self =? -1); [now apply consistent_addBlock | assumption].
  - now apply consistent_addBlock.
  - destruct (submitStar_state fuel now now' address message signature star self)
      as [->|[block ->]]; [assumption | now apply consistent_addBlock].
Qed.

(** C6. Height/length consistency: in every state reachable through
    construction, [initializeChain], [_addBlock] and [submitStar] (the
    queries change nothing) the height counter is the length of the
    chain minus 1, and an append to such a state pushes exactly one
    block and sets the height to the old height plus 1. *)
Theorem height_length_consistent (self : Blockchain) :
  Reachable self ->
  height self = Z.of_nat (List.length (chain self)) - 1
  /\ forall fuel now block,
      exists b,
        snd (_addBlock fuel now block self)
        = mkBlockchain (chain self ++ [b]) (height self + 1).
Proof.
  intros Hr. pose proof (reachable_consistent self Hr) as Hc.
  split; [exact Hc|]. intros fuel now block.
  destruct (consistent_link now block self Hc) as [b Hb].
  exists b. now rewrite addBlock_state, Hb.
Qed.

(** **** Linkage *)

Lemma first_of_height (blocks : list Block.t) :
  forall (off i : nat) (b : Block.t),
    (forall j x, nth_error blocks j = Some x ->
                 Block.height x = Z.of_nat (off + j)) ->
    nth_error blocks i = Some b ->
    hd_error (filter (fun p => Block.height p =? Z.of_nat (off + i)) blocks)
    = Some b.
Proof.
  induction blocks as [|a rest IH]; intros off i b Hh Hi.
  - now destruct i.
  - cbn [filter]. pose proof (Hh 0%nat a eq_refl) as Ha.
    destruct i as [|i].
    + injection Hi as <-. rewrite Ha, Z.eqb_refl. reflexivity.
    + destruct (Z.eqb_spec (Block.height a) (Z.of_nat (off + S i))); [lia|].
      replace (off + S i)%nat with (S off + i)%nat by lia.
      apply IH; [|exact Hi].
      intros j x Hj. rewrite (Hh (S j) x Hj). f_equal. lia.
Qed.

Lemma appended_invariant (n : nat) (self : Blockchain) :
  Appended n self ->
  height self = Z.of_nat n
  /\ List.length (chain self) = S n
  /\ forall i b,
      nth_error (chain self) i = Some b ->
      Block.height b = Z.of_nat i
      /\ ((0 < i)%nat ->
          exists p, nth_error (chain self) (i - 1) = Some p
                    /\ Block.previousBlockHash b = Block.hash p).
Proof.
  induction 1 as [fuel now|n fuel now block b self self' _ IH Hadd].
  - destruct (new_Blockchain_state fuel now) as (g & -> & Hg & _).
    cbn [height chain List.length]. split; [reflexivity|]. split; [reflexivity|].
    intros [|[|i]] b Hb; try discriminate.
    injection Hb as <-. split; [exact Hg | lia].
  - destruct IH as (Hh & Hl & Hblocks).
    apply addBlock_resolved in Hadd. destruct Hadd as (Hlink & -> & _).
    apply linkBlock_inv in Hlink. destruct Hlink as (Hbh & Hprev).
    unfold pushBlock. cbn [height chain].
    split; [lia|]. split; [rewrite length_app; cbn [List.length]; lia|].
    intros i x Hx.
    destruct (Nat.lt_ge_cases i (S n)) as [Hlt|Hge].
    + rewrite nth_error_app1 in Hx by lia.
      destruct (Hblocks i x Hx) as (Hxh & Hxp). split; [exact Hxh|].
      intros Hi. destruct (Hxp Hi) as (p & Hp & Hpp).
      exists p. split; [|exact Hpp].
      rewrite nth_error_app1; [exact Hp | lia].
    + rewrite nth_error_app2 in Hx by lia.
      destruct (i - List.length (chain self))%nat as [|k] eqn:Hk;
        [|now destruct k].
      injection Hx as <-. assert (i = S n) by lia. subst i.
      split; [lia|]. intros _.
      destruct Hprev as (last & Hlast & Hpl); [lia|].
      exists last. split; [|exact Hpl].
      unfold index in Hlast. destruct (height self <? 0); [discriminate|].
      rewrite Hh, Nat2Z.id in Hlast.
      rewrite nth_error_app1 by lia.
      now replace (S n - 1)%nat with n by lia.
Qed.

(** C5. Linkage: after [n] successful appends to a new chain the height
    is [n]; for every [i] from 1 to [n] the block at height [i] (the
    [i]-th element of the chain, which is also what [getBlockByHeight]
    finds) has as previous hash the hash of the block at height
    [i - 1]; and a further successful append links its block to the
    block that is the tip before the push. *)
Theorem appends_linked (n : nat) (self : Blockchain) :
  Appended n self ->
  height self = Z.of_nat n
  /\ (forall i, (0 < i <= n)%nat ->
        exists b p,
          nth_error (chain self) i = Some b
          /\ nth_error (chain self) (i - 1) = Some p
          /\ getBlockByHeight self (Z.of_nat i) = Resolved (Some b)
          /\ getBlockByHeight self (Z.of_nat i - 1) = Resolved (Some p)
          /\ Block.previousBlockHash b = Block.hash p)
  /\ (forall fuel now block b self',
        _addBlock fuel now block self = (Some (Resolved b), self') ->
        exists last,
          tip self = Some last
          /\ Block.previousBlockHash b = Block.hash last
          /\ chain self' = chain self ++ [b]
          /\ height self' = Z.of_nat n + 1).
Proof.
  intros Happ. destruct (appended_invariant n self Happ) as (Hh & Hl & Hblocks).
  assert (Hfind : forall i b, nth_error (chain self) i = Some b ->
                    getBlockByHeight self (Z.of_nat i) = Resolved (Some b)).
  { intros i b Hb. unfold getBlockByHeight. f_equal.
    apply (first_of_height (chain self) 0 i b); [|exact Hb].
    intros j x Hx. now destruct (Hblocks j x Hx). }
  split; [exact Hh|]. split.
  - intros i Hi.
    destruct (nth_error (chain self) i) as [b|] eqn:Hb;
      [|apply nth_error_None in Hb; lia].
    destruct (Hblocks i b Hb) as (_ & Hp). destruct Hp as (p & Hp & Hpp); [lia|].
    exists b, p. repeat split; try assumption.
    + now apply Hfind.
    + replace (Z.of_nat i - 1) with (Z.of_nat (i - 1)) by lia. now apply Hfind.
  - intros fuel now block b self' Hadd.
    apply addBlock_resolved in Hadd. destruct Hadd as (Hlink & -> & _).
    apply linkBlock_inv in Hlink. destruct Hlink as (_ & Hprev).
    destruct Hprev as (last & Hlast & Hpl); [lia|].
    exists last. unfold pushBlock. cbn [chain height].
    repeat split; try assumption; [|lia].
    unfold tip. unfold index in Hlast.
    destruct (height self <? 0); [discriminate|].
    rewrite Hh, Nat2Z.id in Hlast. rewrite Hl.
    now replace (S n - 1)%nat with n by lia.
Qed.

(** C2. Non-atomic append: when the validation that [_addBlock] runs
    on the chain with the new block pushed resolves with a non-empty
    error list, the call rejects with the error [Blockchain is invalid]
    carrying that list, while the block stays at the end of the chain
    and the height stays incremented. *)
Theorem append_not_rolled_back (fuel : nat) (now : Z) (block b : Block.t)
    (self : Blockchain) (errorLog : list string) :
  linkBlock now block self = inr b ->
  validateChain fuel (pushBlock b self) = Some (Resolved errorLog) ->
  errorLog <> [] ->
  fst (_addBlock fuel now block self)
  = Some (Rejected (ErrorWithLog "Blockchain is invalid" errorLog))
  /\ chain (snd (_addBlock fuel now block self)) = chain self ++ [b]
  /\ height (snd (_addBlock fuel now block self)) = height self + 1.
Proof.
  intros Hlink Hval Hne. unfold _addBlock. rewrite Hlink. cbv zeta.
  rewrite Hval. destruct errorLog as [|x l]; [contradiction|].
  cbn [List.length Nat.eqb fst snd pushBlock chain height]. auto.
Qed.

(** *** Challenge and submission *)

Lemma messageTimeOf_challenge (address : string) (n : Z) :
  JS.occurs ":" address = false -> 1 <= n ->
  messageTimeOf (address ++ ":" ++ JS.toString n ++ ":starRegistry") = Some n.
Proof.
  intros Ha Hn. unfold messageTimeOf.
  change (":" ++ JS.toString n ++ ":starRegistry")%string
    with (String ":" (JS.toString n ++ String ":" "starRegistry")).
  destruct (JSFacts.toString_digits n) as [Hdec _]; [lia|].
  rewrite JSFacts.split_first by assumption.
  rewrite JSFacts.split_first by now apply JSFacts.decimal_no_colon.
  cbn [JS.indexToString nth].
  now apply JSFacts.parseInt_toString.
Qed.

Lemma currentTime_seconds (now : Z) :
  1000 <= now -> JS.parseInt (JS.timestamp now) = Some (now / 1000).
Proof.
  intros Hn. rewrite JSFacts.timestamp_seconds by assumption.
  apply JSFacts.parseInt_toString. apply Z.div_le_lower_bound; lia.
Qed.

(** C10. Challenge round trip: for an address without [:] and a clock
    reading of at least one second, the message issued by
    [requestMessageOwnershipVerification] carries the time in seconds
    [now / 1000], the first step of [submitStar] extracts exactly that
    number from it, and it is the number [submitStar] itself reads from
    the same clock. *)
Theorem challenge_round_trip (now : Z) (address : string) :
  JS.occurs ":" address = false ->
  1000 <= now ->
  exists message,
    requestMessageOwnershipVerification now address = Resolved message
    /\ messageTimeOf message = Some (now / 1000)
    /\ JS.parseInt (JS.timestamp now) = Some (now / 1000).
Proof.
  intros Ha Hn.
  exists (address ++ ":" ++ JS.toString (now / 1000) ++ ":starRegistry")%string.
  split; [|split].
  - unfold requestMessageOwnershipVerification.
    now rewrite JSFacts.timestamp_seconds.
  - apply messageTimeOf_challenge; [assumption|].
    apply Z.div_le_lower_bound; lia.
  - now apply currentTime_seconds.
Qed.

Lemma submitStar_checked (fuel : nat) (now now' : Z)
    (address message signature : string) (star : JSValue)
    (self : Blockchain) :
  JS.truthy (messageTimeOf message) = true ->
  JS.gt (JS.minus (JS.parseInt (JS.timestamp now)) 300)
    (messageTimeOf message) = false ->
  submitStar fuel now now' address message signature star self
  = match verify message address signature with
    | inl what => (Some (Rejected (Thrown what)), self)
    | inr false => (Some (Rejected signatureError), self)
    | inr true =>
        _addBlock fuel now'
          (new_Block (JObj [("owner", JStr address); ("star", star)])) self
    end.
Proof.
  intros Ht Hg. unfold submitStar. cbv zeta.
  change (5 * 60) with 300. now rewrite Ht, Hg.
Qed.

Lemma submitStar_expired (fuel : nat) (now now' : Z)
    (address message signature : string) (star : JSValue)
    (self : Blockchain) :
  JS.truthy (messageTimeOf message) = true ->
  JS.gt (JS.minus (JS.parseInt (JS.timestamp now)) 300)
    (messageTimeOf message) = true ->
  submitStar fuel now now' address message signature star self
  = (Some (Rejected expiredError), self).
Proof.
  intros Ht Hg. unfold submitStar. cbv zeta.
  change (5 * 60) with 300. now rewrite Ht, Hg.
Qed.

(** Past the expiry check, [submitStar] never fails with the expiry
    error. *)
Lemma submitStar_not_expired (fuel : nat) (now now' : Z)
    (address message signature : string) (star : JSValue)
    (self : Blockchain) :
  JS.truthy (messageTimeOf message) = true ->
  JS.gt (JS.minus (JS.parseInt (JS.timestamp now)) 300)
    (messageTimeOf message) = false ->
  fst (submitStar fuel now now' address message signature star self)
  <> Some (Rejected expiredError).
Proof.
  intros Ht Hg. rewrite submitStar_checked by assumption.
  destruct (verify message address signature) as [what|[|]].
  - discriminate.
  - intros H. apply addBlock_rejected in H.
    destruct H as [H|[log H]]; discriminate H.
  - discriminate.
Qed.

(** C7. Challenge expiry boundary: for a message whose timestamp
    segment parses to a number [t] other than 0 and a clock reading
    [now] milliseconds (at least one second), [submitStar] fails with
    the expired-challenge error exactly when [now / 1000 - 300 > t]; it
    does not when exactly 300 seconds have passed and does when 301
    have. *)
Theorem challenge_expiry_boundary (fuel : nat) (now now' : Z)
    (address message signature : string) (star : JSValue)
    (self : Blockchain) (t : Z) :
  1000 <= now ->
  messageTimeOf message = Some t ->
  t <> 0 ->
  (fst (submitStar fuel now now' address message signature star self)
     = Some (Rejected expiredError)
   <-> now / 1000 - 300 > t)
  /\ (now / 1000 - t = 300 ->
      fst (submitStar fuel now now' address message signature star self)
      <> Some (Rejected expiredError))
  /\ (now / 1000 - t = 301 ->
      fst (submitStar fuel now now' address message signature star self)
      = Some (Rejected expiredError)).
Proof.
  intros Hn Hm Ht.
  assert (Htruthy : JS.truthy (messageTimeOf message) = true).
  { rewrite Hm. cbn. now destruct (Z.eqb_spec t 0). }
  assert (Hgt : JS.gt (JS.minus (JS.parseInt (JS.timestamp now)) 300)
                  (messageTimeOf message) = (t <? now / 1000 - 300)).
  { now rewrite Hm, currentTime_seconds. }
  assert (Hiff : fst (submitStar fuel now now' address message signature star self)
                 = Some (Rejected expiredError)
                 <-> now / 1000 - 300 > t).
  { destruct (Z.ltb_spec t (now / 1000 - 300)) as [Hlt|Hge].
    - rewrite submitStar_expired by assumption. cbn [fst].
      split; [lia | reflexivity].
    - split; [|lia]. intros H.
      now apply submitStar_not_expired in H. }
  split; [exact Hiff|]. split.
  - intros H300 H. apply Hiff in H. lia.
  - intros H301. apply Hiff. lia.
Qed.

(** C8. Submission failure atomicity: when one of the checks of
    [submitStar] fails (message format, expiry, or a signature the
    verifier answers false for), the call rejects with the error of that
    check and the object is left as it was: same chain, same height. *)
Theorem submitStar_failure_no_effect (fuel : nat) (now now' : Z)
    (address message signature : string) (star : JSValue)
    (self : Blockchain) (e : Error) :
  FailedCheck now address message signature e ->
  fst (submitStar fuel now now' address message signature star self)
  = Some (Rejected e)
  /\ snd (submitStar fuel now now' address message signature star self) = self
  /\ getChainHeight
       (snd (submitStar fuel now now' address message signature star self))
     = getChainHeight self.
Proof.
  intros Hfail.
  assert (H : submitStar fuel now now' address message signature star self
              = (Some (Rejected e), self)).
  { destruct Hfail as [Hf|Ht Hg|Ht Hg Hv].
    - unfold submitStar. cbv zeta. now rewrite Hf.
    - now apply submitStar_expired.
    - rewrite submitStar_checked by assumption. now rewrite Hv. }
  rewrite H. auto.
Qed.

(** *** The ownership query *)

Lemma getStars_loop_filter (address : string) (blocks : list Block.t) :
  forall stars,
    getStars_loop address blocks stars
    = Resolved (stars ++ filter (ownedBy address) (decodedPayloads blocks)).
Proof.
  induction blocks as [|b rest IH]; intros stars; cbn [getStars_loop].
  - cbn. now rewrite app_nil_r.
  - cbn [decodedPayloads flat_map]. fold (decodedPayloads rest).
    unfold getBData.
    destruct (decodeData (Block.body b)) as [data|]; cbn [app filter].
    + unfold ownedBy at 1.
      destruct (getOwner data) as [err|owner].
      * apply IH.
      * destruct (ownerIs owner address).
        -- rewrite IH, <- app_assoc. reflexivity.
        -- apply IH.
    + apply IH.
Qed.

Lemma fieldValue_find (key : string) (props : list (string * JSValue)) :
  fieldValue key props
  = option_map snd (find (fun kv => String.eqb (fst kv) key) props).
Proof.
  induction props as [|[k v] rest IH]; cbn [fieldValue find fst]; [reflexivity|].
  rewrite (String.eqb_sym k key). destruct (String.eqb key k); [reflexivity|].
  exact IH.
Qed.

(** The owner test of the loop ([const { owner } = data] followed by
    [owner === address]) is the test of the specification. *)
Lemma owner_test (address : string) (data : JSValue) :
  match getOwner data with
  | inr owner => ownerIs owner address
  | inl _ => false
  end = hasOwner address data.
Proof.
  destruct data as [|b|n|s|items|props]; cbn [getOwner hasOwner ownerIs];
    try reflexivity.
  rewrite fieldValue_find.
  destruct (find (fun kv => String.eqb (fst kv) "owner") props) as [[k v]|];
    cbn [option_map snd ownerIs]; [|reflexivity].
  destruct v; try reflexivity. apply String.eqb_sym.
Qed.

Lemma getStars_loop_owned (address : string) (blocks : list Block.t) :
  forall stars,
    getStars_loop address blocks stars
    = Resolved (stars ++ ownedPayloads address blocks).
Proof.
  induction blocks as [|b rest IH]; intros stars;
    cbn [getStars_loop ownedPayloads].
  - now rewrite app_nil_r.
  - unfold getBData.
    destruct (decodeData (Block.body b)) as [data|]; [|apply IH].
    rewrite <- (owner_test address data).
    destruct (getOwner data) as [err|owner]; [apply IH|].
    destruct (ownerIs owner address); [|apply IH].
    rewrite IH, <- app_assoc. reflexivity.
Qed.

(** C9. Ownership query: [getStarsByWalletAddress] always resolves, with
    exactly the decoded payloads that are objects with an [owner] field
    equal to the address, in chain order; a block whose payload does not
    decode, or decodes to a value without such an owner, contributes
    nothing and no error comes out. *)
Theorem getStarsByWalletAddress_correct (self : Blockchain)
    (address : string) :
  getStarsByWalletAddress self address
  = Resolved (ownedPayloads address (chain self)).
Proof.
  unfold getStarsByWalletAddress. now rewrite getStars_loop_owned.
Qed.

End Properties.

(** ** Further properties of the class *)

Section Further.

Context {ext : Externals}.

(** *** Lookups *)

Lemma strictEq_eq (a b : option string) : strictEq a b = true <-> a = b.
Proof.
  destruct a as [x|], b as [y|]; cbn; try (split; [discriminate | congruence]).
  - rewrite String.eqb_eq. split; congruence.
  - tauto.
Qed.

Lemma first_match_split (P : Block.t -> bool) (l : list Block.t) (b : Block.t) :
  hd_error (filter P l) = Some b ->
  exists front back,
    l = front ++ b :: back /\ P b = true
    /\ forall x, In x front -> P x = false.
Proof.
  induction l as [|a l IH]; cbn [filter]; [discriminate|].
  destruct (P a) eqn:Ha.
  - cbn. intros H. injection H as <-.
    exists [], l. split; [reflexivity|]. split; [exact Ha|]. intros x [].
  - intros H. destruct (IH H) as (front & back & -> & Hb & Hfront).
    exists (a :: front), back. split; [reflexivity|]. split; [exact Hb|].
    intros x [<-|Hx]; [exact Ha | now apply Hfront].
Qed.

Lemma no_match (P : Block.t -> bool) (l : list Block.t) :
  hd_error (filter P l) = None <-> forall x, In x l -> P x = false.
Proof.
  induction l as [|a l IH]; cbn [filter].
  - split; [intros _ x [] | reflexivity].
  - destruct (P a) eqn:Ha.
    + cbn. split; [discriminate|]. intros H.
      rewrite (H a (or_introl eq_refl)) in Ha. discriminate.
    + rewrite IH. split.
      * intros H x [<-|Hx]; [exact Ha | now apply H].
      * intros H x Hx. apply H. now right.
Qed.

(** The first block satisfying [P] lies at or before any block that
    satisfies it. *)
Lemma first_match_before (P : Block.t -> bool) (l : list Block.t) :
  forall i x,
    nth_error l i = Some x -> P x = true ->
    exists j p, (j <= i)%nat /\ nth_error l j = Some p
                /\ hd_error (filter P l) = Some p.
Proof.
  induction l as [|a l IH]; intros i x Hi Hx; [now destruct i|].
  cbn [filter]. destruct (P a) eqn:Ha.
  - exists 0%nat, a. split; [lia|]. split; reflexivity.
  - destruct i as [|i]; [injection Hi as ->; congruence|].
    destruct (IH i x Hi Hx) as (j & p & Hj & Hp & Hhd).
    exists (S j), p. split; [lia|]. split; assumption.
Qed.

(** X2. [getBlockByHash] answers the first block of the chain that has
    the hash, and [null] exactly when no block has it. *)
Theorem getBlockByHash_first_match (self : Blockchain) (h : option string) :
  (forall b,
      getBlockByHash self h = Resolved (Some b) ->
      exists front back,
        chain self = front ++ b :: back /\ Block.hash b = h
        /\ forall x, In x front -> Block.hash x <> h)
  /\ (getBlockByHash self h = Resolved None
      <-> forall b, In b (chain self) -> Block.hash b <> h).
Proof.
  unfold getBlockByHash. split.
  - intros b H. injection H as H.
    destruct (first_match_split _ _ _ H) as (front & back & Hc & Hb & Hfront).
    exists front, back. split; [exact Hc|]. split; [now apply strictEq_eq|].
    intros x Hx Heq. apply strictEq_eq in Heq.
    rewrite (Hfront x Hx) in Heq. discriminate.
  - split.
    + intros H. injection H as H. rewrite no_match in H.
      intros b Hb Heq. apply strictEq_eq in Heq.
      rewrite (H b Hb) in Heq. discriminate.
    + intros H. f_equal. apply no_match. intros x Hx.
      destruct (strictEq (Block.hash x) h) eqn:He; [|reflexivity].
      apply strictEq_eq in He. now destruct (H x Hx).
Qed.

(** With distinct stored hashes a lookup by the hash of a stored block
    finds that block. *)
Lemma lookup_distinct (l : list Block.t) (j : nat) (p : Block.t) :
  NoDup (map Block.hash l) ->
  nth_error l j = Some p ->
  hd_error (filter (fun x => strictEq (Block.hash x) (Block.hash p)) l)
  = Some p.
Proof.
  intros Hnd Hp.
  assert (Hself : strictEq (Block.hash p) (Block.hash p) = true)
    by now apply strictEq_eq.
  destruct (first_match_before
              (fun x => strictEq (Block.hash x) (Block.hash p)) l j p Hp Hself)
    as (j' & p' & Hj' & Hp' & Hhd).
  destruct (first_match_split _ _ _ Hhd) as (_ & _ & _ & Hsame & _).
  apply strictEq_eq in Hsame.
  assert (Hjj : j' = j).
  { apply (proj1 (NoDup_nth_error (map Block.hash l)) Hnd).
    - rewrite length_map. apply nth_error_Some. congruence.
    - rewrite (map_nth_error Block.hash j' l Hp'),
        (map_nth_error Block.hash j l Hp).
      now f_equal. }
  subst j'. rewrite Hhd. congruence.
Qed.

(** X3. Lookup by its own hash: when no two blocks of the chain store
    the same hash, [getBlockByHash] of the hash of a stored block
    answers that block. *)
Theorem getBlockByHash_own_hash (self : Blockchain) (b : Block.t) :
  DistinctHashes self ->
  In b (chain self) ->
  getBlockByHash self (Block.hash b) = Resolved (Some b).
Proof.
  intros Hnd Hb. apply In_nth_error in Hb. destruct Hb as [j Hj].
  unfold getBlockByHash. f_equal. now apply (lookup_distinct _ j).
Qed.

(** *** What every reachable state looks like *)

(** *** What every reachable state looks like *)

Lemma linked_push (now : Z) (block b : Block.t) (self : Blockchain) :
  Consistent self -> (1 <= List.length (chain self))%nat -> Linked self ->
  linkBlock now block self = inr b ->
  Linked (pushBlock b self).
Proof.
  unfold Consistent. intros Hc Hlen Hl Hlink i x Hx.
  apply linkBlock_inv in Hlink. destruct Hlink as (Hbh & Hprev).
  unfold pushBlock in *. cbn [chain] in *.
  destruct (Nat.lt_ge_cases i (List.length (chain self))) as [Hlt|Hge].
  - rewrite nth_error_app1 in Hx by exact Hlt.
    destruct (Hl i x Hx) as (Hh & Hp). split; [exact Hh|].
    destruct i as [|k]; [exact Hp|].
    destruct Hp as (p & Hp & Hpp). exists p. split; [|exact Hpp].
    rewrite nth_error_app1; [exact Hp | lia].
  - rewrite nth_error_app2 in Hx by exact Hge.
    destruct (i - List.length (chain self))%nat as [|d] eqn:Hd;
      [|now destruct d].
    injection Hx as <-. assert (Hi : i = List.length (chain self)) by lia.
    split; [lia|].
    destruct i as [|k]; [lia|].
    destruct Hprev as (last & Hlast & Hpl); [lia|].
    exists last. split; [|exact Hpl].
    unfold index in Hlast. destruct (height self <? 0); [discriminate|].
    rewrite nth_error_app1 by lia.
    replace k with (Z.to_nat (height self)) by lia. exact Hlast.
Qed.

Lemma wellformed_addBlock (fuel : nat) (now : Z) (block : Block.t)
    (self : Blockchain) :
  Consistent self /\ (1 <= List.length (chain self))%nat /\ Linked self ->
  Consistent (snd (_addBlock fuel now block self))
  /\ (1 <= List.length (chain (snd (_addBlock fuel now block self))))%nat
  /\ Linked (snd (_addBlock fuel now block self)).
Proof.
  intros (Hc & Hlen & Hl). split; [now apply consistent_addBlock|].
  rewrite addBlock_state.
  destruct (linkBlock now block self) as [e|b] eqn:Hlink; [now split|].
  split.
  - unfold pushBlock. cbn [chain]. rewrite length_app. lia.
  - now apply (linked_push now block).
Qed.

Lemma reachable_wellformed (self : Blockchain) :
  Reachable self ->
  Consistent self /\ (1 <= List.length (chain self))%nat /\ Linked self.
Proof.
  induction 1 as [fuel now|fuel now self _ IH|fuel now block self _ IH
                 |fuel now now' address message signature star self _ IH].
  - destruct (new_Blockchain_state fuel now) as (g & -> & Hh & Hp).
    split; [reflexivity|]. split; [cbn; lia|].
    intros [|[|i]] b Hb; try discriminate.
    injection Hb as <-. split; [exact Hh | exact Hp].
  - rewrite initializeChain_state.
    destruct (height self =? -1); [now apply wellformed_addBlock | exact IH].
  - now apply wellformed_addBlock.
  - destruct (submitStar_state fuel now now' address message signature star self)
      as [->|[block ->]]; [exact IH | now apply wellformed_addBlock].
Qed.

Lemma built_reachable (self : Blockchain) : Built self -> Reachable self.
Proof.
  induction 1; [apply reach_new | now apply reach_initializeChain
               | now apply reach_submitStar].
Qed.

(** X4. Linkage in every state reached through the constructor,
    [initializeChain] and [submitStar], whatever the outcome of the
    calls that led to it: the chain is not empty, every block sits at
    the index that is its height, the first block has no previous hash
    and every later block names the hash of the block before it. *)
Theorem built_chain_linked (self : Blockchain) :
  Built self ->
  (1 <= List.length (chain self))%nat /\ Linked self.
Proof.
  intros H.
  now destruct (reachable_wellformed self (built_reachable self H))
    as (_ & Hlen & Hl).
Qed.

(** X5. [getBlockByHeight] in a state reached through the constructor,
    [initializeChain] and [submitStar] answers the block stored at that
    index, and [null] below 0 and above the height counter. *)
Theorem getBlockByHeight_built (self : Blockchain) (h : Z) :
  Built self ->
  getBlockByHeight self h = Resolved (index (chain self) h)
  /\ (h < 0 \/ height self < h -> getBlockByHeight self h = Resolved None).
Proof.
  intros Hbuilt.
  destruct (reachable_wellformed self (built_reachable self Hbuilt))
    as (Hc & _ & Hl).
  assert (Hheights : forall j x, nth_error (chain self) j = Some x ->
                                 Block.height x = Z.of_nat (0 + j)).
  { intros j x Hx. now destruct (Hl j x Hx). }
  assert (Hmain : getBlockByHeight self h = Resolved (index (chain self) h)).
  { unfold getBlockByHeight, index. f_equal.
    destruct (Z.ltb_spec h 0) as [Hneg|Hpos].
    - apply no_match. intros x Hx. apply In_nth_error in Hx.
      destruct Hx as [j Hj]. rewrite (Hheights j x Hj).
      destruct (Z.eqb_spec (Z.of_nat (0 + j)) h); [lia | reflexivity].
    - destruct (nth_error (chain self) (Z.to_nat h)) as [b|] eqn:Hb.
      + pose proof (first_of_height (chain self) 0 (Z.to_nat h) b Hheights Hb)
          as Hfirst.
        cbn [Nat.add] in Hfirst. rewrite Z2Nat.id in Hfirst by lia.
        exact Hfirst.
      + apply no_match. intros x Hx. apply In_nth_error in Hx.
        destruct Hx as [j Hj]. rewrite (Hheights j x Hj).
        apply nth_error_None in Hb.
        assert (j < List.length (chain self))%nat
          by (apply nth_error_Some; congruence).
        destruct (Z.eqb_spec (Z.of_nat (0 + j)) h); [lia | reflexivity]. }
  split; [exact Hmain|]. intros Hout. rewrite Hmain. f_equal.
  unfold index. destruct (Z.ltb_spec h 0); [reflexivity|].
  apply nth_error_None. unfold Consistent in Hc. lia.
Qed.

(** X6. [initializeChain] on a reachable state does nothing: the genesis
    block is there already, no second one is made. *)
Theorem initializeChain_idempotent (fuel : nat) (now : Z) (self : Blockchain) :
  Reachable self ->
  initializeChain fuel now self = (Some (Resolved tt), self).
Proof.
  intros Hr. destruct (reachable_wellformed self Hr) as (Hc & Hlen & _).
  unfold initializeChain, Consistent in *.
  destruct (Z.eqb_spec (height self) (-1)); [lia | reflexivity].
Qed.

(** X7. The constructor leaves a chain of one block at height 0: the
    genesis block, with no previous hash, the encoded genesis payload,
    the time of construction in seconds and a hash that validates;
    validation of that chain resolves with no error. *)
Theorem new_Blockchain_genesis (fuel : nat) (now : Z) :
  exists g,
    new_Blockchain fuel now = mkBlockchain [g] 0
    /\ Block.height g = 0
    /\ Block.previousBlockHash g = None
    /\ Block.body g = encodeData genesisData
    /\ Block.time g = JS.timestamp now
    /\ validate g = true
    /\ validateChain fuel (new_Blockchain fuel now) = Some (Resolved [])
    /\ getChainHeight (new_Blockchain fuel now) = Resolved 0.
Proof.
  unfold new_Blockchain. rewrite initializeChain_state.
  cbn [height Z.eqb]. rewrite addBlock_state.
  unfold linkBlock. cbn [height chain Z.add Z.ltb Z.compare Z.opp Pos.compare
                           Z.pos_sub Pos.compare_cont].
  cbv zeta. unfold pushBlock. cbn [chain height app Z.add Z.opp Z.pos_sub].
  eexists. split; [reflexivity|].
  repeat split.
  unfold validate, Block.set_hash, Block.set_time, Block.set_height, new_Block.
  cbn [Block.hash Block.height Block.body Block.time Block.previousBlockHash].
  apply String.eqb_refl.
Qed.

(** X8. Append-only: a call of [initializeChain] or [submitStar], on
    any state and whatever its outcome, keeps the stored blocks as they
    are and in place, adds at most one block at the end, and raises the
    height counter by the number of blocks added. *)
Theorem operations_append_only (self self' : Blockchain) :
  Call self self' ->
  exists added,
    chain self' = chain self ++ added
    /\ (List.length added <= 1)%nat
    /\ height self' = height self + Z.of_nat (List.length added)
    /\ forall i b, nth_error (chain self) i = Some b ->
                   nth_error (chain self') i = Some b.
Proof.
  assert (Hadd : forall fuel now block,
            exists added,
              chain (snd (_addBlock fuel now block self)) = chain self ++ added
              /\ (List.length added <= 1)%nat
              /\ height (snd (_addBlock fuel now block self))
                 = height self + Z.of_nat (List.length added)).
  { intros fuel now block. rewrite addBlock_state.
    destruct (linkBlock now block self) as [e|b].
    - exists []. rewrite app_nil_r. cbn. split; [reflexivity|]. split; lia.
    - exists [b]. unfold pushBlock. cbn. auto. }
  assert (Hsame : exists added,
            chain self = chain self ++ added
            /\ (List.length added <= 1)%nat
            /\ height self = height self + Z.of_nat (List.length added)).
  { exists []. rewrite app_nil_r. cbn. split; [reflexivity|]. split; lia. }
  intros Hstep.
  assert (H : exists added,
            chain self' = chain self ++ added
            /\ (List.length added <= 1)%nat
            /\ height self' = height self + Z.of_nat (List.length added)).
  { destruct Hstep as [fuel now self
                      |fuel now now' address message signature star self].
    - rewrite initializeChain_state.
      destruct (height self =? -1); [apply Hadd | exact Hsame].
    - destruct (submitStar_state fuel now now' address message signature star self)
        as [->|[block ->]]; [exact Hsame | apply Hadd]. }
  destruct H as (added & Hc & Hl & Hh). exists added.
  split; [exact Hc|]. split; [exact Hl|]. split; [exact Hh|].
  intros i b Hb. rewrite Hc, nth_error_app1; [exact Hb|].
  apply nth_error_Some. congruence.
Qed.

(** X9. A height counter that points past the end of the chain makes
    [_addBlock] read [hash] of [undefined]: the call rejects with that
    [TypeError] and nothing is pushed. *)
Theorem addBlock_counter_out_of_range (fuel : nat) (now : Z) (block : Block.t)
    (self : Blockchain) :
  0 <= height self ->
  Z.of_nat (List.length (chain self)) <= height self ->
  _addBlock fuel now block self = (Some (Rejected TypeError), self).
Proof.
  intros Hpos Hout. unfold _addBlock, linkBlock. cbv zeta.
  destruct (Z.ltb_spec 0 (height self + 1)); [|lia].
  unfold index. destruct (Z.ltb_spec (height self) 0); [lia|].
  destruct (nth_error (chain self) (Z.to_nat (height self))) eqn:Hn;
    [|reflexivity].
  assert (Z.to_nat (height self) < List.length (chain self))%nat
    by (apply nth_error_Some; congruence).
  lia.
Qed.

(** *** What validation reports *)

Lemma visited_in_chain (self : Blockchain) (b : Block.t) :
  Visited self b -> In b (chain self).
Proof.
  intros [t Ht|c p _ Hp _].
  - unfold tip in Ht. now apply nth_error_In in Ht.
  - unfold getBlockByHash in Hp. injection Hp as Hp.
    destruct (first_match_split _ _ _ Hp) as (front & back & -> & _).
    apply in_or_app. right. now left.
Qed.

Lemma walk_sound (fuel : nat) (self : Blockchain) :
  forall c errorLog out,
    Visited self c ->
    Forall (fun e => exists b, Visited self b /\ validate b = false
                               /\ e = invalidMsg b) errorLog ->
    validateChain_walk fuel self (Some c) errorLog = Some (Resolved out) ->
    Forall (fun e => exists b, Visited self b /\ validate b = false
                               /\ e = invalidMsg b) out.
Proof.
  induction fuel as [|fuel IH]; intros c errorLog out Hc Hlog Hw; [discriminate|].
  rewrite walk_unfold in Hw. cbv zeta in Hw.
  set (log' := if validate c then errorLog else errorLog ++ [invalidMsg c]) in *.
  assert (Hlog' : Forall (fun e => exists b, Visited self b /\ validate b = false
                                             /\ e = invalidMsg b) log').
  { subst log'. destruct (validate c) eqn:Hv; [exact Hlog|].
    apply Forall_app. split; [exact Hlog|]. constructor; eauto. }
  destruct (getBlockByHash self (Block.previousBlockHash c)) as [[p|]|e|] eqn:Hp;
    try discriminate.
  destruct (Z.eqb_spec (Block.height p) 0) as [Hz|Hz].
  - unfold afterWalk in Hw. rewrite Hz in Hw. cbn in Hw.
    injection Hw as <-. exact Hlog'.
  - apply (IH p log' out); [|exact Hlog'|exact Hw].
    now apply (visited_prev self c p).
Qed.

(** X10. What a resolved validation reports: on a chain of more than one
    block the entries of the error list are exactly the messages
    [Block with hash <hash> is invalid] of the blocks of the chain that
    the walk ran [validate] on and that failed it; so the list is empty
    exactly when all those blocks validate. *)
Theorem validateChain_reports_exactly (fuel : nat) (self : Blockchain)
    (out : list string) :
  (1 < List.length (chain self))%nat ->
  validateChain fuel self = Some (Resolved out) ->
  (forall e,
      In e out
      <-> exists b, Visited self b /\ In b (chain self)
                    /\ validate b = false /\ e = invalidMsg b)
  /\ (out = [] <-> forall b, Visited self b -> validate b = true).
Proof.
  intros Hlen Hval. rewrite validateChain_long in Hval by exact Hlen.
  destruct (tip_exists self Hlen) as [t Ht]. rewrite Ht in Hval.
  assert (Hiff : forall e,
             In e out
             <-> exists b, Visited self b /\ In b (chain self)
                           /\ validate b = false /\ e = invalidMsg b).
  { intros e. split.
    - intros He.
      pose proof (walk_sound fuel self t [] out (visited_tip self t Ht)
                    (Forall_nil _) Hval) as Hall.
      rewrite Forall_forall in Hall.
      destruct (Hall e He) as (b & Hb & Hv & Hmsg).
      exists b. split; [exact Hb|]. split; [now apply visited_in_chain|]. auto.
    - intros (b & Hb & _ & Hv & ->).
      destruct (visited_walk fuel self t b out Ht Hval Hb) as (fuel' & log' & Hw).
      destruct (walk_logs fuel' self b log' out Hw) as (_ & Hin & _).
      now apply Hin. }
  split; [exact Hiff|]. split.
  - intros -> b Hb. destruct (validate b) eqn:Hv; [reflexivity|].
    exfalso. apply (proj2 (Hiff (invalidMsg b))).
    exists b. split; [exact Hb|]. split; [now apply visited_in_chain|]. auto.
  - intros Hall. destruct out as [|e out]; [reflexivity|].
    destruct (proj1 (Hiff e) (or_introl eq_refl)) as (b & Hb & _ & Hv & _).
    rewrite (Hall b Hb) in Hv. discriminate.
Qed.

(** *** Chains made by the class *)

Lemma linkBlock_fields (now : Z) (block b : Block.t) (self : Blockchain) :
  linkBlock now block self = inr b ->
  Block.body b = Block.body block /\ Block.time b = JS.timestamp now.
Proof.
  unfold linkBlock. cbv zeta.
  destruct (0 <? height self + 1).
  - destruct (index (chain self) (height self)) as [last|]; [|discriminate].
    intros H. injection H as <-. split; reflexivity.
  - intros H. injection H as <-. split; reflexivity.
Qed.

(** A block that had no hash when it was linked validates. *)
Lemma linkBlock_valid (now : Z) (block b : Block.t) (self : Blockchain) :
  Block.hash block = None ->
  linkBlock now block self = inr b ->
  validate b = true.
Proof.
  destruct block as [h n d t p]. cbn [Block.hash]. intros ->.
  unfold linkBlock. cbv zeta.
  destruct (0 <? height self + 1).
  - destruct (index (chain self) (height self)) as [last|]; [|discriminate].
    intros H. injection H as <-. unfold validate. cbn. apply String.eqb_refl.
  - intros H. injection H as <-. unfold validate. cbn. apply String.eqb_refl.
Qed.

Lemma submitStar_state_made (fuel : nat) (now now' : Z)
    (address message signature : string) (star : JSValue)
    (self : Blockchain) :
  snd (submitStar fuel now now' address message signature star self) = self
  \/ (JS.truthy (messageTimeOf message) = true
      /\ JS.gt (JS.minus (JS.parseInt (JS.timestamp now)) 300)
           (messageTimeOf message) = false
      /\ verify message address signature = inr true
      /\ snd (submitStar fuel now now' address message signature star self)
         = snd (_addBlock fuel now' (new_Block (starData address star)) self)).
Proof.
  destruct (JS.truthy (messageTimeOf message)) eqn:Ht.
  - destruct (JS.gt (JS.minus (JS.parseInt (JS.timestamp now)) 300)
                (messageTimeOf message)) eqn:Hg.
    + left. now rewrite submitStar_expired.
    + rewrite submitStar_checked by assumption.
      destruct (verify message address signature) as [what|[|]];
        [now left | right; auto | now left].
  - left. unfold submitStar. cbv zeta. now rewrite Ht.
Qed.

Lemma valid_addBlock (fuel : nat) (now : Z) (block : Block.t)
    (self : Blockchain) :
  Block.hash block = None ->
  (forall x, In x (chain self) -> validate x = true) ->
  forall x, In x (chain (snd (_addBlock fuel now block self))) ->
            validate x = true.
Proof.
  intros Hnone Hvalid x. rewrite addBlock_state.
  destruct (linkBlock now block self) as [e|b] eqn:Hlink; [apply Hvalid|].
  unfold pushBlock. cbn [chain]. intros Hx. apply in_app_or in Hx.
  destruct Hx as [Hx|[<-|[]]]; [now apply Hvalid|].
  now apply (linkBlock_valid now block b self).
Qed.

Lemma built_valid (self : Blockchain) :
  Built self -> forall x, In x (chain self) -> validate x = true.
Proof.
  induction 1 as [fuel now|fuel now self _ IH
                 |fuel now now' address message signature star self _ IH].
  - unfold new_Blockchain. rewrite initializeChain_state. cbn [height Z.eqb].
    apply valid_addBlock; [reflexivity | intros x []].
  - rewrite initializeChain_state. destruct (height self =? -1); [|exact IH].
    now apply valid_addBlock.
  - destruct (submitStar_state_made fuel now now' address message signature
                star self) as [->|(_ & _ & _ & ->)]; [exact IH|].
    now apply valid_addBlock.
Qed.

(** On a linked chain of blocks that validate, the walk from the block
    at index [k] needs at most [k] steps and logs nothing. *)
Lemma walk_linked_valid (self : Blockchain) :
  Linked self ->
  (forall x, In x (chain self) -> validate x = true) ->
  forall fuel k c,
    nth_error (chain self) k = Some c -> (1 <= k <= fuel)%nat ->
    validateChain_walk fuel self (Some c) [] = Some (Resolved []).
Proof.
  intros Hl Hvalid. induction fuel as [|fuel IH]; intros k c Hc Hk; [lia|].
  rewrite walk_unfold. cbv zeta.
  rewrite (Hvalid c (nth_error_In _ _ Hc)).
  destruct (Hl k c Hc) as (_ & Hprev).
  destruct k as [|k']; [lia|]. destruct Hprev as (q & Hq & Hcq).
  assert (Hself : strictEq (Block.hash q) (Block.previousBlockHash c) = true)
    by (apply strictEq_eq; congruence).
  destruct (first_match_before
              (fun x => strictEq (Block.hash x) (Block.previousBlockHash c))
              (chain self) k' q Hq Hself) as (j & p & Hj & Hp & Hhd).
  unfold getBlockByHash. rewrite Hhd.
  destruct (Hl j p Hp) as (Hph & _).
  destruct (Z.eqb_spec (Block.height p) 0) as [Hz|Hz].
  - unfold afterWalk. rewrite Hz. reflexivity.
  - apply (IH j p Hp). lia.
Qed.

Lemma linked_valid_validates (fuel : nat) (self : Blockchain) :
  Linked self ->
  (forall x, In x (chain self) -> validate x = true) ->
  (List.length (chain self) <= fuel)%nat ->
  validateChain fuel self = Some (Resolved []).
Proof.
  intros Hl Hvalid Hfuel. unfold validateChain.
  destruct (Nat.ltb_spec 1 (List.length (chain self))) as [Hlen|Hlen];
    [|reflexivity].
  destruct (nth_error (chain self) (List.length (chain self) - 1)) as [t|] eqn:Ht.
  - apply (walk_linked_valid self Hl Hvalid fuel _ t Ht). lia.
  - apply nth_error_None in Ht. lia.
Qed.

(** X11. A chain made by the class validates: in every state reached
    through the constructor, [initializeChain] and [submitStar],
    [validateChain] resolves with the empty list within as many steps
    as the chain has blocks. *)
Theorem built_chain_validates (fuel : nat) (self : Blockchain) :
  Built self ->
  (List.length (chain self) <= fuel)%nat ->
  validateChain fuel self = Some (Resolved []).
Proof.
  intros Hb Hfuel.
  destruct (reachable_wellformed self (built_reachable self Hb)) as (_ & _ & Hl).
  apply linked_valid_validates; [exact Hl | now apply built_valid | exact Hfuel].
Qed.

(** A submission that passes the three checks on a linked chain of
    blocks that validate is appended and resolves with its block. *)
Lemma submitStar_accepts (fuel : nat) (now now' : Z)
    (address message signature : string) (star : JSValue)
    (self : Blockchain) :
  Consistent self -> (1 <= List.length (chain self))%nat -> Linked self ->
  (forall x, In x (chain self) -> validate x = true) ->
  JS.truthy (messageTimeOf message) = true ->
  JS.gt (JS.minus (JS.parseInt (JS.timestamp now)) 300)
    (messageTimeOf message) = false ->
  verify message address signature = inr true ->
  (List.length (chain self) < fuel)%nat ->
  exists b last,
    submitStar fuel now now' address message signature star self
    = (Some (Resolved b), pushBlock b self)
    /\ tip self = Some last
    /\ Block.previousBlockHash b = Block.hash last
    /\ Block.height b = height self + 1
    /\ Block.body b = encodeData (starData address star)
    /\ Block.time b = JS.timestamp now'
    /\ validate b = true
    /\ validateChain fuel (pushBlock b self) = Some (Resolved []).
Proof.
  intros Hc Hlen Hl Hvalid Ht Hg Hv Hfuel.
  destruct (consistent_link now' (new_Block (starData address star)) self Hc)
    as [b Hlink].
  pose proof (linkBlock_valid now' (new_Block (starData address star)) b self
                eq_refl Hlink) as Hbv.
  pose proof (linkBlock_fields now' _ b self Hlink) as (Hbody & Htime).
  pose proof (linked_push now' _ b self Hc Hlen Hl Hlink) as Hl'.
  assert (Hvalid' : forall x, In x (chain (pushBlock b self)) -> validate x = true).
  { unfold pushBlock. cbn [chain]. intros x Hx. apply in_app_or in Hx.
    destruct Hx as [Hx|[<-|[]]]; [now apply Hvalid | exact Hbv]. }
  assert (Hval : validateChain fuel (pushBlock b self) = Some (Resolved [])).
  { apply linked_valid_validates; try assumption.
    unfold pushBlock. cbn [chain]. rewrite length_app. cbn [List.length]. lia. }
  destruct (linkBlock_inv now' _ b self Hlink) as (Hbh & Hprev).
  destruct Hprev as (last & Hlast & Hpl); [unfold Consistent in Hc; lia|].
  exists b, last.
  split.
  { rewrite submitStar_checked by assumption. rewrite Hv.
    unfold _addBlock. fold (starData address star). rewrite Hlink. cbv zeta.
    rewrite Hval. reflexivity. }
  split.
  { unfold tip. unfold index in Hlast. unfold Consistent in Hc.
    destruct (height self <? 0); [discriminate|].
    replace (List.length (chain self) - 1)%nat with (Z.to_nat (height self))
      by lia.
    exact Hlast. }
  repeat split; assumption.
Qed.

(** X12. Accepted submission: on a chain made by the class, a submission
    whose message time is valid and not expired and whose signature the
    verifier accepts resolves with a new block, given fuel for the
    validation. The block is pushed at the end, has the next height, the
    hash of the former tip as previous hash, the encoded owner and star
    as body, the append time in seconds, and the new chain validates with
    no error. *)
Theorem submitStar_accepted (fuel : nat) (now now' : Z)
    (address message signature : string) (star : JSValue)
    (self : Blockchain) :
  Built self ->
  JS.truthy (messageTimeOf message) = true ->
  JS.gt (JS.minus (JS.parseInt (JS.timestamp now)) 300)
    (messageTimeOf message) = false ->
  verify message address signature = inr true ->
  (List.length (chain self) < fuel)%nat ->
  exists b last,
    submitStar fuel now now' address message signature star self
    = (Some (Resolved b), pushBlock b self)
    /\ tip self = Some last
    /\ Block.previousBlockHash b = Block.hash last
    /\ Block.height b = height self + 1
    /\ Block.body b = encodeData (starData address star)
    /\ Block.time b = JS.timestamp now'
    /\ validate b = true
    /\ validateChain fuel (pushBlock b self) = Some (Resolved []).
Proof.
  intros Hb Ht Hg Hv Hfuel.
  destruct (reachable_wellformed self (built_reachable self Hb))
    as (Hc & Hlen & Hl).
  pose proof (built_valid self Hb) as Hvalid.
  now apply submitStar_accepts.
Qed.

(** X13. [submitStar] changes the object only when the message time is
    valid and not expired and the verifier answered true. *)
Theorem submitStar_changes_only_when_verified (fuel : nat) (now now' : Z)
    (address message signature : string) (star : JSValue)
    (self : Blockchain) :
  snd (submitStar fuel now now' address message signature star self) <> self ->
  JS.truthy (messageTimeOf message) = true
  /\ JS.gt (JS.minus (JS.parseInt (JS.timestamp now)) 300)
       (messageTimeOf message) = false
  /\ verify message address signature = inr true.
Proof.
  intros Hne.
  destruct (submitStar_state_made fuel now now' address message signature
              star self) as [H|(Ht & Hg & Hv & _)]; [contradiction | auto].
Qed.

(** *** Submissions and the ownership query *)

Lemma decodedPayloads_app (l1 l2 : list Block.t) :
  decodedPayloads (l1 ++ l2) = decodedPayloads l1 ++ decodedPayloads l2.
Proof. unfold decodedPayloads. apply flat_map_app. Qed.

Lemma stars_after_push (b : Block.t) (self : Blockchain) (address : string) :
  getStarsByWalletAddress (pushBlock b self) address
  = Resolved (starsOwnedBy address self
              ++ filter (ownedBy address) (decodedPayloads [b])).
Proof.
  unfold getStarsByWalletAddress, starsOwnedBy, pushBlock. cbn [chain].
  rewrite getStars_loop_filter, decodedPayloads_app, filter_app. reflexivity.
Qed.

Lemma stars_unfold (self : Blockchain) (address : string) :
  getStarsByWalletAddress self address = Resolved (starsOwnedBy address self).
Proof.
  unfold getStarsByWalletAddress, starsOwnedBy.
  now rewrite getStars_loop_filter.
Qed.

Lemma submitStar_pushed (fuel : nat) (now now' : Z)
    (address message signature : string) (star : JSValue)
    (self : Blockchain) :
  snd (submitStar fuel now now' address message signature star self) <> self ->
  exists b,
    snd (submitStar fuel now now' address message signature star self)
    = pushBlock b self
    /\ linkBlock now' (new_Block (starData address star)) self = inr b.
Proof.
  intros Hne.
  destruct (submitStar_state_made fuel now now' address message signature
              star self) as [H|(_ & _ & _ & H)]; [contradiction|].
  rewrite H in *. rewrite addBlock_state in *.
  destruct (linkBlock now' (new_Block (starData address star)) self) as [e|b];
    [contradiction | eauto].
Qed.

(** X14. A submission that changed the chain shows up in the ownership
    query: when the payload codec gives back the stored owner and star,
    the stars of the submitting address are the former ones followed by
    the new payload, and the stars of every other address are as
    before. *)
Theorem stars_after_submission (fuel : nat) (now now' : Z)
    (address message signature : string) (star : JSValue)
    (self : Blockchain) :
  decodeData (encodeData (starData address star))
  = Some (starData address star) ->
  snd (submitStar fuel now now' address message signature star self) <> self ->
  getStarsByWalletAddress
    (snd (submitStar fuel now now' address message signature star self)) address
  = Resolved (starsOwnedBy address self ++ [starData address star])
  /\ forall other,
      other <> address ->
      getStarsByWalletAddress
        (snd (submitStar fuel now now' address message signature star self)) other
      = getStarsByWalletAddress self other.
Proof.
  intros Hcodec Hne.
  destruct (submitStar_pushed fuel now now' address message signature star self Hne)
    as (b & -> & Hlink).
  destruct (linkBlock_fields now' _ b self Hlink) as (Hbody & _).
  assert (Hdec : decodedPayloads [b] = [starData address star]).
  { unfold decodedPayloads, getBData. cbn [flat_map].
    rewrite Hbody. unfold new_Block. cbn [Block.body]. now rewrite Hcodec. }
  split.
  - rewrite stars_after_push, Hdec. cbn [filter].
    unfold ownedBy, starData. cbn [getOwner find fst snd option_map ownerIs].
    rewrite (String.eqb_refl "owner"). cbn [option_map snd ownerIs].
    now rewrite String.eqb_refl.
  - intros other Hother. rewrite stars_after_push, Hdec, stars_unfold.
    cbn [filter].
    unfold ownedBy, starData. cbn [getOwner find fst snd option_map ownerIs].
    rewrite (String.eqb_refl "owner"). cbn [option_map snd ownerIs].
    destruct (String.eqb_spec address other) as [Heq|_];
      [now destruct Hother | now rewrite app_nil_r].
Qed.

Lemma split_no_separator (sep : ascii) (s : string) :
  JS.occurs sep s = false -> JS.split sep s = [s].
Proof.
  induction s as [|c r IH]; cbn [JS.occurs JS.split]; [reflexivity|].
  intros H. apply orb_false_elim in H. destruct H as [Hc Hr].
  now rewrite Hc, IH.
Qed.

(** X15. A message without [:] has no timestamp segment: [submitStar]
    rejects it as badly formatted, before the clock or the verifier is
    looked at, and changes nothing. *)
Theorem submitStar_message_without_colon (fuel : nat) (now now' : Z)
    (address message signature : string) (star : JSValue)
    (self : Blockchain) :
  JS.occurs ":" message = false ->
  submitStar fuel now now' address message signature star self
  = (Some (Rejected formatError), self).
Proof.
  intros H. unfold submitStar, messageTimeOf. cbv zeta.
  rewrite split_no_separator by exact H. reflexivity.
Qed.

Lemma challenge_message (now : Z) (address message : string) :
  JS.occurs ":" address = false -> 1000 <= now ->
  requestMessageOwnershipVerification now address = Resolved message ->
  messageTimeOf message = Some (now / 1000) /\ 1 <= now / 1000.
Proof.
  intros Ha Hn Hreq. unfold requestMessageOwnershipVerification in Hreq.
  injection Hreq as <-.
  assert (Hs : 1 <= now / 1000) by (apply Z.div_le_lower_bound; lia).
  split; [|exact Hs].
  rewrite JSFacts.timestamp_seconds by exact Hn.
  now apply messageTimeOf_challenge.
Qed.

(** X16. Life time of a challenge: a message issued by
    [requestMessageOwnershipVerification] at [now1] and submitted when
    the clock reads [now2] is rejected as expired exactly when more than
    300 seconds lie between the two readings, taken in whole seconds. *)
Theorem challenge_expires_after_300s (fuel : nat) (now1 now2 now' : Z)
    (address message signature : string) (star : JSValue)
    (self : Blockchain) :
  JS.occurs ":" address = false ->
  1000 <= now1 ->
  1000 <= now2 ->
  requestMessageOwnershipVerification now1 address = Resolved message ->
  (fst (submitStar fuel now2 now' address message signature star self)
   = Some (Rejected expiredError)
   <-> now2 / 1000 - now1 / 1000 > 300).
Proof.
  intros Ha H1 H2 Hreq.
  destruct (challenge_message now1 address message Ha H1 Hreq) as (Hm & Hs).
  assert (Htruthy : JS.truthy (messageTimeOf message) = true).
  { rewrite Hm. cbn. now destruct (Z.eqb_spec (now1 / 1000) 0); [lia|]. }
  assert (Hgt : JS.gt (JS.minus (JS.parseInt (JS.timestamp now2)) 300)
                  (messageTimeOf message)
                = (now1 / 1000 <? now2 / 1000 - 300)).
  { now rewrite Hm, currentTime_seconds. }
  destruct (Z.ltb_spec (now1 / 1000) (now2 / 1000 - 300)) as [Hlt|Hge].
  - rewrite submitStar_expired by assumption. cbn [fst].
    split; [lia | reflexivity].
  - split; [|lia]. intros H.
    now apply submitStar_not_expired in H.
Qed.

(** X17. From challenge to block: on a chain made by the class, the
    message issued for an address, signed so that the verifier accepts
    it and submitted within 300 seconds, is appended. The call resolves
    with a block of the next height that names the hash of the former
    tip and, when the codec gives back the payload, decodes to the owner
    and star submitted; the new chain validates with no error. *)
Theorem challenge_then_submit (fuel : nat) (now1 now2 now' : Z)
    (address message signature : string) (star : JSValue)
    (self : Blockchain) :
  Built self ->
  JS.occurs ":" address = false ->
  1000 <= now1 ->
  1000 <= now2 ->
  now2 / 1000 - now1 / 1000 <= 300 ->
  requestMessageOwnershipVerification now1 address = Resolved message ->
  verify message address signature = inr true ->
  decodeData (encodeData (starData address star))
  = Some (starData address star) ->
  (List.length (chain self) < fuel)%nat ->
  exists b last,
    submitStar fuel now2 now' address message signature star self
    = (Some (Resolved b), pushBlock b self)
    /\ tip self = Some last
    /\ Block.previousBlockHash b = Block.hash last
    /\ Block.height b = height self + 1
    /\ getBData b = Resolved (starData address star)
    /\ validateChain fuel (pushBlock b self) = Some (Resolved []).
Proof.
  intros Hb Ha H1 H2 Hfresh Hreq Hv Hcodec Hfuel.
  destruct (challenge_message now1 address message Ha H1 Hreq) as (Hm & Hs).
  assert (Htruthy : JS.truthy (messageTimeOf message) = true).
  { rewrite Hm. cbn. now destruct (Z.eqb_spec (now1 / 1000) 0); [lia|]. }
  assert (Hgt : JS.gt (JS.minus (JS.parseInt (JS.timestamp now2)) 300)
                  (messageTimeOf message) = false).
  { rewrite Hm, currentTime_seconds by exact H2. cbn.
    now destruct (Z.ltb_spec (now1 / 1000) (now2 / 1000 - 300)); [lia|]. }
  destruct (reachable_wellformed self (built_reachable self Hb))
    as (Hc & Hlen & Hl).
  destruct (submitStar_accepts fuel now2 now' address message signature star
              self Hc Hlen Hl (built_valid self Hb) Htruthy Hgt Hv Hfuel)
    as (b & last & Hsub & Htip & Hprev & Hh & Hbody & _ & _ & Hval).
  exists b, last. repeat split; try assumption.
  unfold getBData. now rewrite Hbody, Hcodec.
Qed.

(** X18. A missing predecessor anywhere on the walk: when a block that
    [validateChain] runs [validate] on names a previous hash that no
    block has, the validation does not resolve, whatever the fuel. *)
Theorem validateChain_missing_predecessor (self : Blockchain) (b : Block.t) :
  (1 < List.length (chain self))%nat ->
  Visited self b ->
  getBlockByHash self (Block.previousBlockHash b) = Resolved None ->
  forall fuel out, validateChain fuel self <> Some (Resolved out).
Proof.
  intros Hlen Hvis Hnone fuel out Hval.
  rewrite validateChain_long in Hval by exact Hlen.
  destruct (tip_exists self Hlen) as [t Ht]. rewrite Ht in Hval.
  destruct (visited_walk fuel self t b out Ht Hval Hvis) as (fuel' & log' & Hw).
  destruct fuel' as [|fuel']; [discriminate Hw|].
  rewrite walk_dangling in Hw by exact Hnone. discriminate Hw.
Qed.

(** *** Tampering with a block of a chain made by the class *)







End Further.

(** ** The small instance: facts and runs *)

Module ToyFacts.
Import Toy.





Lemma built_chain2 : Built (ext := externals) chain2.
Proof.
  exact (built_submitStar 8 now now "A" (message "A")
           ("signed:" ++ message "A") (JStr "Vega") fresh (built_new 8 now)).
Qed.

Lemma built_chain3 : Built (ext := externals) chain3.
Proof.
  exact (built_submitStar 8 now now "B" (message "B") ("signed:" ++ message "B")
           (JStr "Deneb") chain2 built_chain2).
Qed.



Lemma distinct_chain3 : DistinctHashes chain3.
Proof.
  unfold DistinctHashes. vm_compute.
  repeat (apply NoDup_cons; [cbn; intuition discriminate|]).
  apply NoDup_nil.
Qed.

End ToyFacts.

(** ** Runs on concrete chains *)

Import Toy.

(** C1. On a two-block chain whose block 1 names a previous hash that no
    block has, [validateChain] reads [height] of the [null] the lookup
    answered: whatever the fuel, its promise stays pending; nothing is
    resolved and no broken-chain entry is recorded. *)
Theorem validateChain_dangling_pending :
  forall fuel,
    validateChain (ext := externals) (S fuel) dangling = Some Pending.
Proof. intros fuel. vm_compute. reflexivity. Qed.



(** Appending to a chain whose block 1 was tampered with: the call is
    rejected with the validation log and the block stays appended. *)
Lemma append_not_rolled_back_witness :
  linkBlock (ext := externals) now extra forgedBody = inr extraLinked
  /\ fst (_addBlock (ext := externals) 8 now extra forgedBody)
     = Some (Rejected (ErrorWithLog "Blockchain is invalid"
                         [invalidMsg (block 1 forgedBody)]))
  /\ chain (snd (_addBlock (ext := externals) 8 now extra forgedBody))
     = chain forgedBody ++ [extraLinked]
  /\ height (snd (_addBlock (ext := externals) 8 now extra forgedBody))
     = height forgedBody + 1.
Proof.
  split; [vm_compute; reflexivity|].
  apply (append_not_rolled_back (ext := externals) 8 now extra extraLinked
           forgedBody [invalidMsg (block 1 forgedBody)]).
  - vm_compute; reflexivity.
  - vm_compute; reflexivity.
  - discriminate.
Defined.



(** One successful submission after construction. *)
Lemma appends_linked_witness :
  Appended (ext := externals) 1 chain2
  /\ height chain2 = Z.of_nat 1
  /\ (exists b p,
        nth_error (chain chain2) 1 = Some b
        /\ nth_error (chain chain2) 0 = Some p
        /\ getBlockByHeight chain2 1 = Resolved (Some b)
        /\ getBlockByHeight chain2 0 = Resolved (Some p)
        /\ Block.previousBlockHash b = Block.hash p).
Proof.
  assert (Ha : Appended (ext := externals) 1 chain2).
  { apply (appended_next 0 8 now
             (new_Block (JObj [("owner", JStr "A"); ("star", JStr "Vega")]))
             (block 1 chain2) fresh chain2).
    - apply appended_new.
    - vm_compute; reflexivity. }
  split; [exact Ha|].
  destruct (appends_linked (ext := externals) 1 chain2 Ha) as (Hh & Hlinks & _).
  split; [exact Hh|].
  destruct (Hlinks 1%nat) as (b & p & H); [lia|].
  exists b, p. exact H.
Defined.

(** The chain after construction and one submission. *)
Lemma height_length_consistent_witness :
  Reachable (ext := externals) chain2
  /\ height chain2 = Z.of_nat (List.length (chain chain2)) - 1.
Proof.
  assert (Hr : Reachable (ext := externals) chain2).
  { exact (reach_submitStar 8 now now "A" (message "A")
             ("signed:" ++ message "A") (JStr "Vega") fresh (reach_new 8 now)). }
  split; [exact Hr|].
  exact (proj1 (height_length_consistent (ext := externals) chain2 Hr)).
Defined.

(** A challenge issued at 1700000000 s, submitted 300 s (and 999 ms)
    later and 301 s later. *)
Lemma challenge_expiry_boundary_witness :
  messageTimeOf (message "A") = Some 1700000000
  /\ fst (submitStar (ext := externals) 8 1700000300999 now "A" (message "A")
            "bad" JNull fresh)
     <> Some (Rejected expiredError)
  /\ fst (submitStar (ext := externals) 8 1700000301000 now "A" (message "A")
            "bad" JNull fresh)
     = Some (Rejected expiredError).
Proof.
  split; [vm_compute; reflexivity|]. split.
  - apply (proj1 (proj2 (challenge_expiry_boundary (ext := externals) 8
                           1700000300999 now "A" (message "A") "bad" JNull fresh
                           1700000000 ltac:(lia) ltac:(vm_compute; reflexivity)
                           ltac:(lia)))).
    vm_compute; reflexivity.
  - apply (proj2 (proj2 (challenge_expiry_boundary (ext := externals) 8
                           1700000301000 now "A" (message "A") "bad" JNull fresh
                           1700000000 ltac:(lia) ltac:(vm_compute; reflexivity)
                           ltac:(lia)))).
    vm_compute; reflexivity.
Defined.

(** A submission with a wrong signature on a new chain: rejected, the
    height stays 0. *)
Lemma submitStar_failure_no_effect_witness :
  FailedCheck (ext := externals) now "A" (message "A") "bad" signatureError
  /\ fst (submitStar (ext := externals) 8 now now "A" (message "A") "bad"
            (JStr "Vega") fresh)
     = Some (Rejected signatureError)
  /\ snd (submitStar (ext := externals) 8 now now "A" (message "A") "bad"
            (JStr "Vega") fresh)
     = fresh
  /\ getChainHeight fresh = Resolved 0.
Proof.
  assert (Hf : FailedCheck (ext := externals) now "A" (message "A") "bad"
                 signatureError).
  { apply failed_signature; vm_compute; reflexivity. }
  split; [exact Hf|].
  destruct (submitStar_failure_no_effect (ext := externals) 8 now now "A"
              (message "A") "bad" (JStr "Vega") fresh signatureError Hf)
    as (H1 & H2 & _).
  split; [exact H1|]. split; [exact H2 | reflexivity].
Defined.

(** The challenge for [addr1]. *)
Lemma challenge_round_trip_witness :
  JS.occurs ":" "addr1" = false
  /\ 1000 <= now
  /\ exists message,
      requestMessageOwnershipVerification now "addr1" = Resolved message
      /\ messageTimeOf message = Some (now / 1000)
      /\ JS.parseInt (JS.timestamp now) = Some (now / 1000).
Proof.
  split; [reflexivity|]. split; [unfold now; lia|].
  apply (challenge_round_trip now "addr1"); [reflexivity | unfold now; lia].
Defined.

(** With owners A, B, A on the chain, the query for A resolves with the
    two payloads of A in chain order, and the query for an address that
    owns nothing with the empty list. *)
Lemma getStarsByWalletAddress_correct_witness :
  getStarsByWalletAddress (ext := externals) chain4 "A"
  = Resolved [JObj [("owner", JStr "A"); ("star", JStr "Vega")];
              JObj [("owner", JStr "A"); ("star", JStr "Altair")]]
  /\ getStarsByWalletAddress (ext := externals) chain4 "Z" = Resolved [].
Proof.
  rewrite (getStarsByWalletAddress_correct (ext := externals) chain4 "A"),
    (getStarsByWalletAddress_correct (ext := externals) chain4 "Z").
  split; vm_compute; reflexivity.
Defined.

(** *** Further runs *)

(** With owners A, B, A on the chain, the query for A answers the two
    payloads of A, in chain order. *)
Example stars_of_A :
  getStarsByWalletAddress (ext := externals) chain4 "A"
  = Resolved [JObj [("owner", JStr "A"); ("star", JStr "Vega")];
              JObj [("owner", JStr "A"); ("star", JStr "Altair")]].
Proof. vm_compute. reflexivity. Qed.

(** An address with a [:] shifts the segments of the challenge: what
    [submitStar] parses is part of the address. *)
Example challenge_colon_address :
  requestMessageOwnershipVerification now "ad:dr"
  = Resolved "ad:dr:1700000300:starRegistry"
  /\ messageTimeOf "ad:dr:1700000300:starRegistry" = None.
Proof. split; vm_compute; reflexivity. Qed.

(** A timestamp segment of 0 is rejected as a format error, before the
    expiry check. *)
Example zero_timestamp_is_format_error :
  fst (submitStar (ext := externals) 8 now now "A" "A:0:starRegistry" "bad"
         JNull fresh)
  = Some (Rejected formatError).
Proof. vm_compute. reflexivity. Qed.

(** A block other than the tip whose height was set to 0 ends the walk
    like the genesis block does: it is not validated, and nothing is
    reported although it no longer validates. *)
Example zero_height_not_reported :
  validate (ext := externals) (block 1 zeroHeight) = false
  /\ validateChain (ext := externals) 8 zeroHeight = Some (Resolved []).
Proof. split; vm_compute; reflexivity. Qed.

(** An untampered chain validates with an empty list. *)
Example chain3_valid :
  validateChain (ext := externals) 8 chain3 = Some (Resolved []).
Proof. vm_compute. reflexivity. Qed.

Example toString_ex : JS.toString 1700000000123 = "1700000000123".
Proof. reflexivity. Qed.

Example split_ex : JS.split ":" "a:12::b" = ["a"; "12"; ""; "b"].
Proof. reflexivity. Qed.

Example parseInt_ex :
  JS.parseInt "  -0x1fz" = Some (-31) /\ JS.parseInt "12ab" = Some 12
  /\ JS.parseInt "undefined" = None /\ JS.parseInt "" = None.
Proof. repeat split; reflexivity. Qed.

(** *** Runs for the further properties *)

Lemma reachable_chain2 : Reachable (ext := externals) chain2.
Proof.
  exact (reach_submitStar 8 now now "A" (message "A")
           ("signed:" ++ message "A") (JStr "Vega") fresh (reach_new 8 now)).
Qed.

(** The hash of block 1 of the three-block chain is first found at
    index 1. *)
Lemma getBlockByHash_first_match_witness :
  getBlockByHash chain3 (Block.hash (block 1 chain3))
  = Resolved (Some (block 1 chain3))
  /\ exists front back,
      chain chain3 = front ++ block 1 chain3 :: back
      /\ Block.hash (block 1 chain3) = Block.hash (block 1 chain3)
      /\ forall x, In x front -> Block.hash x <> Block.hash (block 1 chain3).
Proof.
  assert (H : getBlockByHash chain3 (Block.hash (block 1 chain3))
              = Resolved (Some (block 1 chain3))) by (vm_compute; reflexivity).
  split; [exact H|].
  exact (proj1 (getBlockByHash_first_match chain3 (Block.hash (block 1 chain3)))
           (block 1 chain3) H).
Defined.

Lemma getBlockByHash_own_hash_witness :
  DistinctHashes chain3
  /\ In (block 1 chain3) (chain chain3)
  /\ getBlockByHash chain3 (Block.hash (block 1 chain3))
     = Resolved (Some (block 1 chain3)).
Proof.
  assert (Hin : In (block 1 chain3) (chain chain3)).
  { unfold block. apply nth_In. vm_compute. lia. }
  split; [exact ToyFacts.distinct_chain3|]. split; [exact Hin|].
  exact (getBlockByHash_own_hash chain3 (block 1 chain3)
           ToyFacts.distinct_chain3 Hin).
Defined.

Lemma built_chain_linked_witness :
  Built (ext := externals) chain2
  /\ (1 <= List.length (chain chain2))%nat /\ Linked chain2.
Proof.
  split; [exact ToyFacts.built_chain2|].
  exact (built_chain_linked (ext := externals) chain2 ToyFacts.built_chain2).
Defined.

Lemma getBlockByHeight_built_witness :
  getBlockByHeight chain2 1 = Resolved (index (chain chain2) 1)
  /\ getBlockByHeight chain2 5 = Resolved None.
Proof.
  split.
  - exact (proj1 (getBlockByHeight_built (ext := externals) chain2 1
                    ToyFacts.built_chain2)).
  - apply (proj2 (getBlockByHeight_built (ext := externals) chain2 5
                    ToyFacts.built_chain2)).
    right. vm_compute. reflexivity.
Defined.

Lemma initializeChain_idempotent_witness :
  Reachable (ext := externals) chain2
  /\ initializeChain (ext := externals) 8 now chain2 = (Some (Resolved tt), chain2).
Proof.
  split; [exact reachable_chain2|].
  exact (initializeChain_idempotent (ext := externals) 8 now chain2
           reachable_chain2).
Defined.

Lemma operations_append_only_witness :
  Call (ext := externals) fresh chain2
  /\ exists added,
      chain chain2 = chain fresh ++ added
      /\ (List.length added <= 1)%nat
      /\ height chain2 = height fresh + Z.of_nat (List.length added)
      /\ forall i b, nth_error (chain fresh) i = Some b ->
                     nth_error (chain chain2) i = Some b.
Proof.
  assert (Hs : Call (ext := externals) fresh chain2).
  { exact (call_submitStar 8 now now "A" (message "A")
             ("signed:" ++ message "A") (JStr "Vega") fresh). }
  split; [exact Hs|].
  exact (operations_append_only (ext := externals) fresh chain2 Hs).
Defined.

Lemma addBlock_counter_out_of_range_witness :
  _addBlock (ext := externals) 8 now extra (mkBlockchain [] 0)
  = (Some (Rejected TypeError), mkBlockchain [] 0).
Proof.
  apply (addBlock_counter_out_of_range (ext := externals) 8 now extra
           (mkBlockchain [] 0)); cbn; lia.
Defined.

Lemma validateChain_reports_exactly_witness :
  validateChain (ext := externals) 8 forgedBody
  = Some (Resolved [invalidMsg (block 1 forgedBody)])
  /\ (forall e,
        In e [invalidMsg (block 1 forgedBody)]
        <-> exists b, Visited forgedBody b /\ In b (chain forgedBody)
                      /\ validate (ext := externals) b = false
                      /\ e = invalidMsg b).
Proof.
  assert (H : validateChain (ext := externals) 8 forgedBody
              = Some (Resolved [invalidMsg (block 1 forgedBody)]))
    by (vm_compute; reflexivity).
  split; [exact H|].
  apply (proj1 (validateChain_reports_exactly (ext := externals) 8 forgedBody
                  [invalidMsg (block 1 forgedBody)]
                  ltac:(vm_compute; lia) H)).
Defined.

Lemma validateChain_never_reports_broken_witness :
  ~ In (brokenMsg (block 0 forgedBody)) [invalidMsg (block 1 forgedBody)].
Proof.
  apply (validateChain_never_reports_broken (ext := externals) 8 forgedBody).
  vm_compute; reflexivity.
Defined.

Lemma validateChain_missing_predecessor_witness :
  Visited dangling (block 1 dangling)
  /\ forall fuel out,
      validateChain (ext := externals) fuel dangling <> Some (Resolved out).
Proof.
  assert (Hv : Visited dangling (block 1 dangling))
    by (apply visited_tip; reflexivity).
  split; [exact Hv|].
  apply (validateChain_missing_predecessor (ext := externals) dangling
           (block 1 dangling)).
  - vm_compute; lia.
  - exact Hv.
  - vm_compute; reflexivity.
Defined.

Lemma built_chain_validates_witness :
  Built (ext := externals) chain3
  /\ validateChain (ext := externals) 8 chain3 = Some (Resolved []).
Proof.
  split; [exact ToyFacts.built_chain3|].
  apply (built_chain_validates (ext := externals) 8 chain3 ToyFacts.built_chain3).
  vm_compute; lia.
Defined.

Lemma submitStar_accepted_witness :
  exists b last,
    submitStar (ext := externals) 8 now now "C" (message "C")
      ("signed:" ++ message "C") (JStr "Sirius") chain3
    = (Some (Resolved b), pushBlock b chain3)
    /\ tip chain3 = Some last
    /\ Block.previousBlockHash b = Block.hash last
    /\ Block.height b = height chain3 + 1
    /\ Block.body b = encodeData (starData "C" (JStr "Sirius"))
    /\ Block.time b = JS.timestamp now
    /\ validate b = true
    /\ validateChain 8 (pushBlock b chain3) = Some (Resolved []).
Proof.
  apply (submitStar_accepted (ext := externals) 8 now now "C" (message "C")
           ("signed:" ++ message "C") (JStr "Sirius") chain3 ToyFacts.built_chain3).
  - vm_compute; reflexivity.
  - vm_compute; reflexivity.
  - vm_compute; reflexivity.
  - vm_compute; lia.
Defined.

Lemma submitStar_changes_only_when_verified_witness :
  chain2 <> fresh
  /\ verify (message "A") "A" ("signed:" ++ message "A") = inr true.
Proof.
  assert (Hne : chain2 <> fresh)
    by (intros H; vm_compute in H; discriminate H).
  split; [exact Hne|].
  exact (proj2 (proj2 (submitStar_changes_only_when_verified (ext := externals)
                         8 now now "A" (message "A") ("signed:" ++ message "A")
                         (JStr "Vega") fresh Hne))).
Defined.

Lemma stars_after_submission_witness :
  getStarsByWalletAddress (ext := externals) chain2 "A"
  = Resolved (starsOwnedBy "A" fresh ++ [starData "A" (JStr "Vega")])
  /\ getStarsByWalletAddress (ext := externals) chain2 "B"
     = getStarsByWalletAddress fresh "B".
Proof.
  assert (Hne : chain2 <> fresh)
    by (intros H; vm_compute in H; discriminate H).
  destruct (stars_after_submission (ext := externals) 8 now now "A" (message "A")
              ("signed:" ++ message "A") (JStr "Vega") fresh
              ltac:(vm_compute; reflexivity) Hne) as [H1 H2].
  split; [exact H1|]. apply H2. discriminate.
Defined.

Lemma submitStar_message_without_colon_witness :
  submitStar (ext := externals) 8 now now "A" "A 1700000000 starRegistry"
    "bad" JNull fresh
  = (Some (Rejected formatError), fresh).
Proof.
  apply (submitStar_message_without_colon (ext := externals)). reflexivity.
Defined.

Lemma challenge_expires_after_300s_witness :
  requestMessageOwnershipVerification 1700000000000 "A" = Resolved (message "A")
  /\ fst (submitStar (ext := externals) 8 1700000301000 now "A" (message "A")
            ("signed:" ++ message "A") JNull fresh)
     = Some (Rejected expiredError).
Proof.
  assert (Hreq : requestMessageOwnershipVerification 1700000000000 "A"
                 = Resolved (message "A")) by (vm_compute; reflexivity).
  split; [exact Hreq|].
  apply (proj2 (challenge_expires_after_300s (ext := externals) 8 1700000000000
                  1700000301000 now "A" (message "A")
                  ("signed:" ++ message "A") JNull fresh
                  ltac:(reflexivity) ltac:(lia) ltac:(lia) Hreq)).
  vm_compute; reflexivity.
Defined.

Lemma challenge_then_submit_witness :
  exists b last,
    submitStar (ext := externals) 8 now now "A" (message "A")
      ("signed:" ++ message "A") (JStr "Vega") fresh
    = (Some (Resolved b), pushBlock b fresh)
    /\ tip fresh = Some last
    /\ Block.previousBlockHash b = Block.hash last
    /\ Block.height b = height fresh + 1
    /\ getBData b = Resolved (starData "A" (JStr "Vega"))
    /\ validateChain 8 (pushBlock b fresh) = Some (Resolved []).
Proof.
  apply (challenge_then_submit (ext := externals) 8 1700000000000 now now "A"
           (message "A") ("signed:" ++ message "A") (JStr "Vega") fresh
           (built_new 8 now)).
  - reflexivity.
  - lia.
  - unfold now; lia.
  - vm_compute; discriminate.
  - vm_compute; reflexivity.
  - vm_compute; reflexivity.
  - vm_compute; reflexivity.
  - vm_compute; lia.
Defined.
